(** * MEnvAgent curation: a shallow embedding of the crawler and of the
      SWE-task utilities, with the properties of its specification.

    Sources embedded here:
    - [curation/crawl_repo.py]: [make_query], [bfs_star_range];
    - [curation/swe_task_crawling/utils.py]: [Repo.call_api],
      [Repo.get_version_at_commit], [Repo.get_all_loop], [_extract_hints],
      [extract_problem_statement_and_hints], [extract_patches].

    Conventions.  Python [int] is [Z]; a Python [str] is a [string] whose
    characters are code points below 256 (on which the only decimal digits
    are ['0'..'9']); [None] is [option]'s [None]; a raised exception is the
    left injection of a sum.  Library functions the repository calls but does
    not define (the HTTP layer, [dateutil], [unidiff]) are Section variables. *)

From Stdlib Require Import ZArith List String Ascii Bool Lia.
From Stdlib Require Import DecimalString.
From Stdlib Require Import Permutation Sorted DecimalPos DecimalZ.
Import ListNotations.

Open Scope string_scope.
Open Scope Z_scope.

(** ** Python values shared by the modules *)

(** The exceptions the embedded code can raise. *)
Inductive exn : Type :=
| TypeError
| ValueError
| AttributeError
| KeyError
| UnboundLocalError (var : string)
| AssertionError
| GenericException (msg : string).

(** A computation that returns or raises. *)
Definition result (A : Type) : Type := (exn + A)%type.

Definition ret {A} (a : A) : result A := inr a.
Definition raise {A} (e : exn) : result A := inl e.
Definition bind {A B} (m : result A) (k : A -> result B) : result B :=
  match m with
  | inl e => inl e
  | inr a => k a
  end.

Declare Scope py_scope.
Delimit Scope py_scope with py.
Notation "x <- m ;; k" := (bind m (fun x => k))
  (at level 61, m at next level, right associativity) : py_scope.

(** [str(n)] for an [int]. *)
Definition str_of_int (n : Z) : string := NilZero.string_of_int (Z.to_int n).

(** Truth value of an optional string: [None] and [""] are false. *)
Definition truthy (s : option string) : bool :=
  match s with
  | None => false
  | Some "" => false
  | Some _ => true
  end.

(** The line feed of the string literals. *)
Definition newline : string := String (ascii_of_nat 10) EmptyString.

(** [sep.join(parts)]. *)
Fixpoint join (sep : string) (parts : list string) : string :=
  match parts with
  | [] => ""
  | [p] => p
  | p :: ps => p ++ sep ++ join sep ps
  end.

(** [w in s]: [w] occurs in [s] as a substring. *)
Fixpoint contains (w s : string) : bool :=
  if prefix w s then true
  else match s with
       | EmptyString => false
       | String _ s' => contains w s'
       end.

(** ** The range-bisection enumerator, [crawl_repo.py] *)

Module CrawlRepo.

(** A search range [(s_min, s_max)]; [s_max = None] is an unbounded range. *)
Definition SearchRange : Type := (Z * option Z)%type.

(** The star counts a range denotes. *)
Definition in_range (r : SearchRange) (x : Z) : Prop :=
  fst r <= x /\ match snd r with None => True | Some hi => x <= hi end.

Definition make_query (language : option string)
  (stars_min stars_max : option Z) : string :=
  let parts := if truthy language
               then ["language:" ++ match language with Some l => l | None => "" end]
               else [] in
  let parts :=
    match stars_min, stars_max with
    | Some lo, Some hi =>
      List.app parts ["stars:" ++ str_of_int lo ++ ".." ++ str_of_int hi]
    | Some lo, None => List.app parts ["stars:>=" ++ str_of_int lo]
    | None, Some hi => List.app parts ["stars:<=" ++ str_of_int hi]
    | None, None => parts
    end in
  join " " parts.

(** The midpoint [bfs_star_range] computes for a range that overflows the
    cap: [s_min + 5000] when unbounded, the floor midpoint otherwise. *)
Definition split_mid (r : SearchRange) : Z :=
  match snd r with
  | None => fst r + 5000
  | Some hi => (fst r + hi) / 2
  end.

Section Enumerator.

(** The remote search service: [World] is its state, [RepoRecord] the opaque
    record it returns.  Both calls answer [None] when they raise. *)
Variable World RepoRecord : Type.
Variable get_total_count : string -> World -> World * option Z.
Variable fetch_repos_in_range : string -> World -> World * option (list RepoRecord).

Record bfs_state : Type := {
  queue : list SearchRange;
  all_results : list RepoRecord
}.

(** One iteration of [while queue:]; [None] when the queue is empty. *)
Definition bfs_iter (language : option string) (w : World) (st : bfs_state)
  : option (World * bfs_state) :=
  match queue st with
  | [] => None
  | (s_min, s_max) :: rest =>
    let query := make_query language (Some s_min) s_max in
    match get_total_count query w with
    | (w1, None) => Some (w1, {| queue := rest; all_results := all_results st |})
    | (w1, Some total_count) =>
      if total_count =? 0 then
        Some (w1, {| queue := rest; all_results := all_results st |})
      else if 1000 <? total_count then
        match s_max with
        | None =>
          let mid := s_min + 5000 in
          if mid <=? s_min then
            Some (w1, {| queue := rest; all_results := all_results st |})
          else
            Some (w1, {| queue := (rest ++ [(s_min, Some mid); (mid + 1, None)])%list;
                         all_results := all_results st |})
        | Some hi =>
          let mid := (s_min + hi) / 2 in
          if mid <=? s_min then
            Some (w1, {| queue := rest; all_results := all_results st |})
          else
            Some (w1, {| queue := (rest ++ [(s_min, Some mid); (mid + 1, Some hi)])%list;
                         all_results := all_results st |})
        end
      else
        match fetch_repos_in_range query w1 with
        | (w2, Some repos) =>
          Some (w2, {| queue := rest; all_results := (all_results st ++ repos)%list |})
        | (w2, None) =>
          Some (w2, {| queue := (rest ++ [(s_min, s_max)])%list;
                       all_results := all_results st |})
        end
    end
  end.

(** The worklist loop, bounded by [fuel] iterations; [None] when the fuel
    runs out before the queue empties. *)
Fixpoint bfs_loop (fuel : nat) (language : option string) (w : World)
  (st : bfs_state) : option (list RepoRecord) :=
  match bfs_iter language w st with
  | None => Some (all_results st)
  | Some (w', st') =>
    match fuel with
    | O => None
    | S fuel' => bfs_loop fuel' language w' st'
    end
  end.

Definition bfs_star_range (fuel : nat) (language : option string)
  (stars_min stars_max : option Z) (w : World) : option (list RepoRecord) :=
  bfs_loop fuel language w
    {| queue := [(match stars_min with Some m => m | None => 0 end, stars_max)];
       all_results := [] |}.

(** What an iteration did to the queue: the ranges it appended behind the
    rest of the popped queue. *)
Definition enqueued_by (language : option string) (w : World) (st : bfs_state)
  (added : list SearchRange) : Prop :=
  exists w' st', bfs_iter language w st = Some (w', st') /\
                 queue st' = (tl (queue st) ++ added)%list.

(** The claim of the specification, at one iteration: the popped range is
    replaced by exactly two sub-ranges that partition it. *)
Definition splits_in_two (language : option string) (w : World)
  (st : bfs_state) : Prop :=
  exists popped r1 r2,
    hd_error (queue st) = Some popped /\
    enqueued_by language w st [r1; r2] /\
    (forall x, in_range popped x <-> in_range r1 x \/ in_range r2 x) /\
    (forall x, ~ (in_range r1 x /\ in_range r2 x)).

(** *** Properties of one iteration *)

Lemma bfs_iter_overflow language w st s_min s_max rest w1 total_count :
  queue st = (s_min, s_max) :: rest ->
  get_total_count (make_query language (Some s_min) s_max) w
    = (w1, Some total_count) ->
  1000 < total_count ->
  bfs_iter language w st =
    Some (w1, {| queue :=
                   if split_mid (s_min, s_max) <=? s_min then rest
                   else (rest ++ [(s_min, Some (split_mid (s_min, s_max)));
                                  (split_mid (s_min, s_max) + 1, s_max)])%list;
                 all_results := all_results st |}).
Proof.
  intros Hq Hc Hgt. unfold bfs_iter. rewrite Hq, Hc.
  assert (E0 : (total_count =? 0) = false) by (apply Z.eqb_neq; lia).
  assert (E1 : (1000 <? total_count) = true) by (apply Z.ltb_lt; lia).
  rewrite E0, E1. unfold split_mid; simpl.
  destruct s_max as [hi|]; simpl.
  - destruct ((s_min + hi) / 2 <=? s_min); reflexivity.
  - destruct (s_min + 5000 <=? s_min); reflexivity.
Qed.

Lemma split_mid_bounds s_min hi :
  s_min < split_mid (s_min, Some hi) ->
  s_min < split_mid (s_min, Some hi) < hi.
Proof.
  unfold split_mid; simpl. intros H.
  Z.div_mod_to_equations. lia.
Qed.

Lemma split_covers s_min s_max x :
  s_min < split_mid (s_min, s_max) ->
  in_range (s_min, s_max) x <->
  in_range (s_min, Some (split_mid (s_min, s_max))) x \/
  in_range (split_mid (s_min, s_max) + 1, s_max) x.
Proof.
  intros H. unfold in_range; simpl.
  destruct s_max as [hi|].
  - pose proof (split_mid_bounds s_min hi H) as B. lia.
  - unfold split_mid in *; simpl in *. lia.
Qed.

Lemma split_disjoint s_min s_max x :
  ~ (in_range (s_min, Some (split_mid (s_min, s_max))) x /\
     in_range (split_mid (s_min, s_max) + 1, s_max) x).
Proof. unfold in_range; simpl. lia. Qed.

(** C1, as amended: when the count query of the popped range [s_min, s_max]
    answers more than 1000 and the computed midpoint strictly exceeds
    [s_min], the iteration enqueues exactly the two sub-ranges [s_min, mid]
    and [mid + 1, s_max] (with [mid = s_min + 5000] for an unbounded range),
    whose union is the popped range and which share no value. *)
Theorem split_partitions_range language w st s_min s_max rest w1 total_count :
  queue st = (s_min, s_max) :: rest ->
  get_total_count (make_query language (Some s_min) s_max) w
    = (w1, Some total_count) ->
  1000 < total_count ->
  s_min < split_mid (s_min, s_max) ->
  let mid := split_mid (s_min, s_max) in
  bfs_iter language w st =
    Some (w1, {| queue := (rest ++ [(s_min, Some mid); (mid + 1, s_max)])%list;
                 all_results := all_results st |}) /\
  (s_max = None -> mid = s_min + 5000) /\
  (forall hi, s_max = Some hi -> mid = (s_min + hi) / 2 /\ mid + 1 <= hi) /\
  (forall x, in_range (s_min, s_max) x <->
             in_range (s_min, Some mid) x \/ in_range (mid + 1, s_max) x) /\
  (forall x, ~ (in_range (s_min, Some mid) x /\ in_range (mid + 1, s_max) x)).
Proof.
  intros Hq Hc Hgt Hmid mid. subst mid.
  split; [|split; [|split; [|split]]].
  - rewrite (bfs_iter_overflow _ _ _ _ _ _ _ _ Hq Hc Hgt).
    assert (E : (split_mid (s_min, s_max) <=? s_min) = false)
      by (apply Z.leb_gt; exact Hmid).
    rewrite E. reflexivity.
  - intros ->. reflexivity.
  - intros hi ->. split; [reflexivity|].
    pose proof (split_mid_bounds _ _ Hmid). lia.
  - intros x. apply split_covers; assumption.
  - intros x. apply split_disjoint.
Qed.

Lemma bfs_iter_degenerate language w st s_min s_max rest w1 total_count :
  queue st = (s_min, s_max) :: rest ->
  get_total_count (make_query language (Some s_min) s_max) w
    = (w1, Some total_count) ->
  1000 < total_count ->
  split_mid (s_min, s_max) <= s_min ->
  bfs_iter language w st =
    Some (w1, {| queue := rest; all_results := all_results st |}).
Proof.
  intros Hq Hc Hgt Hmid.
  rewrite (bfs_iter_overflow _ _ _ _ _ _ _ _ Hq Hc Hgt).
  assert (E : (split_mid (s_min, s_max) <=? s_min) = true)
    by (apply Z.leb_le; exact Hmid).
  rewrite E. reflexivity.
Qed.

Lemma degenerate_enqueues_nothing language w st s_min s_max rest w1 total_count added :
  queue st = (s_min, s_max) :: rest ->
  get_total_count (make_query language (Some s_min) s_max) w
    = (w1, Some total_count) ->
  1000 < total_count ->
  split_mid (s_min, s_max) <= s_min ->
  enqueued_by language w st added ->
  added = [].
Proof.
  intros Hq Hc Hgt Hmid (w' & st' & Hit & Hadd).
  rewrite (bfs_iter_degenerate _ _ _ _ _ _ _ _ Hq Hc Hgt Hmid) in Hit.
  inversion Hit; subst. rewrite Hq in Hadd. simpl in Hadd.
  destruct added as [|a added]; [reflexivity|].
  apply (f_equal (@List.length _)) in Hadd. rewrite List.length_app in Hadd.
  simpl in Hadd. lia.
Qed.

(** C2: an iteration whose count query overflows the cap and whose computed
    midpoint does not strictly exceed the lower bound drops the popped range:
    the queue is left as the rest, nothing is enqueued, no repository is
    fetched and the iteration returns. *)
Theorem degenerate_split_dropped language w st s_min s_max rest w1 total_count :
  queue st = (s_min, s_max) :: rest ->
  get_total_count (make_query language (Some s_min) s_max) w
    = (w1, Some total_count) ->
  1000 < total_count ->
  split_mid (s_min, s_max) <= s_min ->
  bfs_iter language w st =
    Some (w1, {| queue := rest; all_results := all_results st |}) /\
  (forall added, enqueued_by language w st added -> added = []) /\
  (forall w' st', bfs_iter language w st = Some (w', st') ->
                  (List.length (queue st') < List.length (queue st))%nat).
Proof.
  intros Hq Hc Hgt Hmid.
  pose proof (bfs_iter_degenerate _ _ _ _ _ _ _ _ Hq Hc Hgt Hmid) as E.
  split; [exact E|]. split.
  - intros added Hadd.
    exact (degenerate_enqueues_nothing _ _ _ _ _ _ _ _ _ Hq Hc Hgt Hmid Hadd).
  - intros w' st' Hit. rewrite E in Hit. inversion Hit; subst.
    rewrite Hq. simpl. lia.
Qed.

(** No split ever enqueues a range behind a midpoint that does not exceed the
    lower bound: whatever an overflowing iteration appends, it appends only
    when [s_min < mid]. *)
Lemma split_enqueues_only_above language w st s_min s_max rest w1 total_count added :
  queue st = (s_min, s_max) :: rest ->
  get_total_count (make_query language (Some s_min) s_max) w
    = (w1, Some total_count) ->
  1000 < total_count ->
  enqueued_by language w st added ->
  added <> [] ->
  s_min < split_mid (s_min, s_max).
Proof.
  intros Hq Hc Hgt Hadd Hne.
  destruct (Z.lt_ge_cases s_min (split_mid (s_min, s_max))) as [H|H]; [exact H|].
  elim Hne. apply (degenerate_enqueues_nothing _ _ _ _ _ _ _ _ _ Hq Hc Hgt H Hadd).
Qed.

End Enumerator.

Arguments queue {RepoRecord} _.
Arguments all_results {RepoRecord} _.
Arguments bfs_iter {World RepoRecord} _ _ _ _ _.
Arguments bfs_loop {World RepoRecord} _ _ _ _ _ _.
Arguments bfs_star_range {World RepoRecord} _ _ _ _ _ _ _.
Arguments enqueued_by {World RepoRecord} _ _ _ _ _ _.
Arguments splits_in_two {World RepoRecord} _ _ _ _ _.

(** *** A concrete service: every count query answers 1001 *)

Definition overflowing_count (q : string) (w : unit) : unit * option Z :=
  (w, Some 1001).

Definition no_fetch (q : string) (w : unit) : unit * option (list unit) :=
  (w, None).

Definition single_value_state : bfs_state unit :=
  {| queue := [(5, Some 5)]; all_results := [] |}.

(** C1 fails as stated: the range [5, 5] overflows the cap, and the
    iteration enqueues nothing instead of two sub-ranges. *)
Lemma split_single_value_counterexample :
  overflowing_count (make_query None (Some 5) (Some 5)) tt
    = (tt, Some 1001) /\
  bfs_iter overflowing_count no_fetch None tt single_value_state
    = Some (tt, {| queue := []; all_results := [] |}) /\
  ~ splits_in_two overflowing_count no_fetch None tt single_value_state.
Proof.
  split; [reflexivity|]. split; [reflexivity|].
  intros (popped & r1 & r2 & _ & (w' & st' & Hit & Hadd) & _).
  vm_compute in Hit. inversion Hit; subst. discriminate Hadd.
Qed.

Lemma split_partitions_range_witness :
  bfs_iter overflowing_count no_fetch None tt
    {| queue := [(10, Some 20)]; all_results := [] |}
  = Some (tt, {| queue := [(10, Some 15); (16, Some 20)]; all_results := [] |}).
Proof.
  refine (proj1 (split_partitions_range unit unit overflowing_count no_fetch
                   None tt {| queue := [(10, Some 20)]; all_results := [] |}
                   10 (Some 20) [] tt 1001 _ _ _ _)).
  - reflexivity.
  - reflexivity.
  - lia.
  - vm_compute. reflexivity.
Defined.

Lemma degenerate_split_dropped_witness :
  bfs_iter overflowing_count no_fetch None tt single_value_state
  = Some (tt, {| queue := []; all_results := [] |}).
Proof.
  refine (proj1 (degenerate_split_dropped unit unit overflowing_count no_fetch
                   None tt single_value_state 5 (Some 5) [] tt 1001 _ _ _ _)).
  - reflexivity.
  - reflexivity.
  - lia.
  - vm_compute. discriminate.
Defined.

End CrawlRepo.

(** ** The SWE-task utilities, [swe_task_crawling/utils.py] *)

Module Utils.

(** *** JSON payloads as Python reads them *)

(** The value [json.loads] builds; an object lists each key once. *)
#[local] Set Warnings "-register-all".
Inductive json : Type :=
| JNull
| JBool (b : bool)
| JNum (n : Z)
| JStr (s : string)
| JArr (items : list json)
| JObj (fields : list (string * json)).

Fixpoint assoc {A} (key : string) (fields : list (string * A)) : option A :=
  match fields with
  | [] => None
  | (k, v) :: rest => if String.eqb k key then Some v else assoc key rest
  end.

(** [data[key]] for a string key. *)
Definition subscript (data : json) (key : string) : result json :=
  match data with
  | JObj fields =>
    match assoc key fields with
    | Some v => ret v
    | None => raise KeyError
    end
  | _ => raise TypeError
  end.

(** Truth value: [not v] is its negation. *)
Definition json_truthy (v : json) : bool :=
  match v with
  | JNull => false
  | JBool b => b
  | JNum n => negb (n =? 0)
  | JStr s => negb (String.eqb s "")
  | JArr items => match items with [] => false | _ => true end
  | JObj fields => match fields with [] => false | _ => true end
  end.

Fixpoint chars (s : string) : list json :=
  match s with
  | EmptyString => []
  | String c s' => JStr (String c EmptyString) :: chars s'
  end.

(** The items [yield from v] produces. *)
Definition iterate (v : json) : result (list json) :=
  match v with
  | JArr items => ret items
  | JObj fields => ret (map (fun kv => JStr (fst kv)) fields)
  | JStr s => ret (chars s)
  | _ => raise TypeError
  end.

Definition is_data (v : json) : bool :=
  match v with
  | JStr s => String.eqb s "data"
  | _ => false
  end.

(** ["data" in v]. *)
Definition contains_data (v : json) : result bool :=
  match v with
  | JObj fields => ret (match assoc "data" fields with Some _ => true | None => false end)
  | JArr items => ret (existsb is_data items)
  | JStr s => ret (contains "data" s)
  | _ => raise TypeError
  end.

(** [rl > 0] where [rl] is what [headers.get] returned: a [str] or [None].
    Python 3 orders neither against an [int]. *)
Inductive pyval : Type :=
| PyNone
| PyStr (s : string)
| PyInt (n : Z).

Definition py_gt (a : pyval) (b : Z) : result bool :=
  match a with
  | PyInt n => ret (b <? n)
  | PyStr _ => raise TypeError
  | PyNone => raise TypeError
  end.

Definition header_value (h : option string) : pyval :=
  match h with
  | None => PyNone
  | Some s => PyStr s
  end.

(** An HTTP response: its status, [headers.get('x-ratelimit-remaining')] and
    [json()], [None] when the body is not JSON. *)
Record Response : Type := {
  status_code : Z;
  x_ratelimit_remaining : option string;
  json_body : option json
}.

(** What one [requests.post] does. *)
Inductive post_outcome : Type :=
| Responded (response : Response)
| TransportFailure.

(** What the caller of [call_api] observes besides its result. *)
Inductive event : Type :=
| Post
| Sleep (seconds : Z).

(** How a call ends: it returns, it raises, it stays for ever in a wait loop
    that re-reads the header of the response it already holds, or the fuel of
    the model runs out. *)
Inductive call_end : Type :=
| Returned (response : option Response)
| Raised (e : exn)
| Waiting
| OutOfFuel.

Section ApiClient.

(** Python's [int] on a [str]; [None] when it raises [ValueError]. *)
Variable py_int : string -> option Z.

Definition int_of_header (h : option string) : result Z :=
  match h with
  | None => raise TypeError
  | Some s =>
    match py_int s with
    | Some n => ret n
    | None => raise ValueError
    end
  end.

(** The handler of the transport exceptions, which also catches the
    [JSONDecodeError] of [requests] (a [RequestException]). *)
Definition on_transport_failure (attempt max_retries : Z) : option Z :=
  if attempt <? max_retries - 1 then Some (attempt + 1) else None.

(** The throttle of a 200 answer. *)
Definition throttle (rl : Z) : list event :=
  List.app (if rl <? 1000 then [Sleep (60 * 10)] else [])
           (if rl <? 100 then [Sleep (60 * 60)] else []).

(** [call_api]: the [n]-th request is answered by [post n]; [fuel] bounds the
    iterations of the outer [while True]. *)
Fixpoint call_api (fuel : nat) (post : nat -> post_outcome) (max_retries : Z)
  (n : nat) (attempt : Z) : list event * call_end :=
  let retry :=
    match on_transport_failure attempt max_retries with
    | Some attempt' =>
      match fuel with
      | O => ([Post; Sleep 20], OutOfFuel)
      | S fuel' =>
        let (evs, e) := call_api fuel' post max_retries (S n) attempt' in
        (Post :: Sleep 20 :: evs, e)
      end
    | None => ([Post], Returned None)
    end in
  match post n with
  | TransportFailure => retry
  | Responded response =>
    if status_code response =? 200 then
      match json_body response with
      | None => retry
      | Some response_json =>
        match int_of_header (x_ratelimit_remaining response) with
        | inl e => ([Post], Raised e)
        | inr rl =>
          match contains_data response_json with
          | inl e => (Post :: throttle rl, Raised e)
          | inr true => (Post :: throttle rl, Returned (Some response))
          | inr false =>
            (Post :: throttle rl,
             Raised (GenericException "GraphQL Query failed to return data"))
          end
        end
      end
    else if status_code response =? 403 then
      match py_gt (header_value (x_ratelimit_remaining response)) 0 with
      | inl e => ([Post], Raised e)
      | inr true =>
        match fuel with
        | O => ([Post], OutOfFuel)
        | S fuel' =>
          let (evs, e) := call_api fuel' post max_retries (S n) attempt in
          (Post :: evs, e)
        end
      | inr false => ([Post; Sleep (60 * 5)], Waiting)
      end
    else
      match json_body response with
      | None => retry
      | Some _ =>
        ([Post], Raised (GenericException "GraphQL Query failed to run"))
      end
  end.

(** *** The 403 path *)

Lemma py_gt_header_raises (h : option string) (b : Z) :
  py_gt (header_value h) b = raise TypeError.
Proof. destruct h; reflexivity. Qed.

(** Whatever the quota header holds, a 403 answer to the [n]-th request ends
    the call with [TypeError]: the header is compared with [0] as [headers.get]
    returned it.  No sleep is recorded and no further request is sent. *)
Lemma call_api_403_raises fuel post max_retries n attempt response :
  post n = Responded response ->
  status_code response = 403 ->
  call_api fuel post max_retries n attempt = ([Post], Raised TypeError).
Proof.
  intros Hp Hs.
  destruct fuel; simpl; rewrite Hp, Hs; simpl;
    rewrite py_gt_header_raises; reflexivity.
Qed.

End ApiClient.

(** A decimal reading of [int]: an optional sign and digits. *)
Definition is_digit (c : ascii) : bool :=
  ((48 <=? nat_of_ascii c) && (nat_of_ascii c <=? 57))%nat.

Fixpoint digits_value (acc : Z) (s : string) : option Z :=
  match s with
  | EmptyString => Some acc
  | String c s' =>
    if is_digit c
    then digits_value (10 * acc + Z.of_nat (nat_of_ascii c - 48)) s'
    else None
  end.

Definition decimal_int (s : string) : option Z :=
  match s with
  | EmptyString => None
  | String "-" (String _ _ as d) => option_map Z.opp (digits_value 0 d)
  | String "+" (String _ _ as d) => digits_value 0 d
  | _ => digits_value 0 s
  end.

Definition forbidden (rl : string) : Response :=
  {| status_code := 403;
     x_ratelimit_remaining := Some rl;
     json_body := Some (JObj [("message", JStr "rate limit exceeded")]) |}.

(** C9, at the failing input: a 403 answer whose quota header reads ["0"], and
    one whose header reads ["4999"].  [call_api] with the default
    [max_retries = 10] raises [TypeError] after the single request: it neither
    sleeps five minutes nor sends the request again. *)
Theorem call_api_403_type_error :
  call_api decimal_int 100 (fun _ => Responded (forbidden "0")) 10 0 0
    = ([Post], Raised TypeError) /\
  call_api decimal_int 100 (fun _ => Responded (forbidden "4999")) 10 0 0
    = ([Post], Raised TypeError).
Proof. split; reflexivity. Qed.

(** *** The tag/version resolver *)

(** One entry of [_tags_cache]: the keys ["name"], ["oid"] and ["date"]. *)
Record Tag : Type := {
  tag_name : string;
  tag_oid : string;
  tag_date : string
}.

(** The maximal run of digits at the head of a string, and what follows. *)
Fixpoint span_digits (s : string) : string * string :=
  match s with
  | EmptyString => ("", "")
  | String c s' =>
    if is_digit c
    then let (d, r) := span_digits s' in (String c d, r)
    else ("", s)
  end.

(** Group 1 of [(\d+\.\d+)(?:\.\d+)?] matched at the head of [s].  Both
    [\d+] are greedy and a shorter first run is followed by a digit, never by
    the dot, so the match exists exactly when the maximal run is followed by
    a dot and a digit; the optional patch component is outside the group. *)
Definition match_version (s : string) : option string :=
  let (major, r1) := span_digits s in
  match major, r1 with
  | String _ _, String c r =>
    if Ascii.eqb c "."
    then let (minor, _) := span_digits r in
         match minor with
         | String _ _ => Some (major ++ "." ++ minor)
         | EmptyString => None
         end
    else None
  | _, _ => None
  end.

(** [re.search(r"(\d+\.\d+)(?:\.\d+)?", s)], then [group(1)]: the match at
    the leftmost position that has one. *)
Fixpoint search_version (s : string) : option string :=
  match match_version s with
  | Some v => Some v
  | None =>
    match s with
    | EmptyString => None
    | String _ s' => search_version s'
    end
  end.

(** A tag ref of the listing, with the outcome of the query of its date: it
    raised, or it gave [committedDate], [None] when no commit object came
    back. *)
Record TagRef : Type := {
  ref_name : string;
  ref_oid : string;
  ref_date : result (option string)
}.

(** The two attributes of a [Repo] behind the cache. *)
Record tags_state : Type := {
  _tags_cache : option (list Tag);
  _tags_cache_loaded : bool
}.

Definition fresh : tags_state :=
  {| _tags_cache := None; _tags_cache_loaded := false |}.

Section Resolver.

(** [parser.parse(s).timestamp()] of [dateutil], in whole seconds as the
    dates of the remote API are; [None] when it raises. *)
Variable parse_timestamp : string -> option Z.

Definition timestamp (s : string) : result Z :=
  match parse_timestamp s with
  | Some t => ret t
  | None => raise ValueError
  end.

(** The key of [min]: the distance of a tag's date to the commit's. *)
Definition tag_distance (commit_timestamp : Z) (x : Tag) : result Z :=
  (t <- timestamp (tag_date x) ;; ret (Z.abs (t - commit_timestamp)))%py.

(** [min(l, key=...)] after its first item: a later item replaces the best
    so far only when its key is strictly smaller. *)
Fixpoint min_from (commit_timestamp : Z) (best : Tag) (best_key : Z)
  (l : list Tag) : result Tag :=
  match l with
  | [] => ret best
  | x :: l' =>
    (k <- tag_distance commit_timestamp x ;;
     if k <? best_key
     then min_from commit_timestamp x k l'
     else min_from commit_timestamp best best_key l')%py
  end.

Definition closest_tag (commit_timestamp : Z) (cache : list Tag) : result Tag :=
  match cache with
  | [] => raise ValueError
  | x :: l =>
    (k <- tag_distance commit_timestamp x ;; min_from commit_timestamp x k l)%py
  end.

(** The body of the [try] of [get_version_at_commit], on a repository whose
    cache is loaded ([_load_tags_cache] returns at once).  [cache] is
    [_tags_cache] ([None] when the repository has no tag); [commit_lookup] is
    the outcome of the commit-date query: it raised, or it gave
    [commit_date], [None] when no date came back. *)
Definition resolve_version (cache : option (list Tag))
  (commit_lookup : result (option string)) (commit_sha : string)
  : result (option string) :=
  (commit_date <- commit_lookup ;;
   match cache with
   | Some ((newest :: _) as tags) =>
     let matching_tags :=
       filter (fun tag => String.eqb (tag_oid tag) commit_sha) tags in
     match matching_tags with
     | exact :: _ =>
       match search_version (tag_name exact) with
       | Some version => ret (Some version)
       | None => ret None
       end
     | [] =>
       by_date <-
         match commit_date with
         | Some d =>
           if truthy commit_date then
             commit_timestamp <- timestamp d ;;
             closest <- closest_tag commit_timestamp tags ;;
             ret (search_version (tag_name closest))
           else ret None
         | None => ret None
         end ;;
       match by_date with
       | Some version => ret (Some version)
       | None => ret (search_version (tag_name newest))
       end
     end
   | _ => ret None
   end)%py.

(** [get_version_at_commit]: any exception of the body is logged and
    answered by [None]. *)
Definition get_version_at_commit (cache : option (list Tag))
  (commit_lookup : result (option string)) (commit_sha : string)
  : option string :=
  match resolve_version cache commit_lookup commit_sha with
  | inl _ => None
  | inr version => version
  end.

(** The loop of [_load_tags_cache] over the refs: a tag is cached when its
    date came back. *)
Fixpoint collect_tags (refs : list TagRef) (cache : list Tag)
  : result (list Tag) :=
  match refs with
  | [] => ret cache
  | r :: rest =>
    (d <- ref_date r ;;
     collect_tags rest
       match d with
       | Some tag_date =>
         List.app cache [{| tag_name := ref_name r; tag_oid := ref_oid r;
                            tag_date := tag_date |}]
       | None => cache
       end)%py
  end.

(** [sort(key=..., reverse=True)]: the key of every tag is computed first,
    and the sort is stable, tags of equal date keeping their order. *)
Fixpoint keyed (tags : list Tag) : result (list (Z * Tag)) :=
  match tags with
  | [] => ret []
  | x :: rest =>
    (k <- timestamp (tag_date x) ;; ks <- keyed rest ;; ret ((k, x) :: ks))%py
  end.

Fixpoint insert_newest_first (kx : Z * Tag) (sorted : list (Z * Tag))
  : list (Z * Tag) :=
  match sorted with
  | [] => [kx]
  | ky :: rest =>
    if fst kx <? fst ky
    then ky :: insert_newest_first kx rest
    else kx :: sorted
  end.

Definition sort_newest_first (tags : list Tag) : result (list Tag) :=
  (ks <- keyed tags ;; ret (map snd (fold_right insert_newest_first [] ks)))%py.

(** [_load_tags_cache]; [listing] is the outcome of the query of the refs:
    it raised, or it gave the nodes, [None] when no response came back. *)
Definition _load_tags_cache (self : tags_state)
  (listing : result (option (list TagRef))) : tags_state :=
  if _tags_cache_loaded self then self
  else
    match (nodes <- listing ;;
           match nodes with
           | Some ((_ :: _) as refs) =>
             tags <- collect_tags refs [] ;;
             sorted <- sort_newest_first tags ;;
             ret (Some sorted)
           | _ => ret (_tags_cache self)
           end)%py with
    | inl _ => {| _tags_cache := Some []; _tags_cache_loaded := true |}
    | inr cache => {| _tags_cache := cache; _tags_cache_loaded := true |}
    end.

(** *** Reading a version off a tag name *)

Lemma span_digits_app p c r :
  is_digit c = false ->
  span_digits (p ++ String c r) =
    (fst (span_digits p), snd (span_digits p) ++ String c r).
Proof.
  intros Hc. induction p as [|a p IH]; simpl.
  - rewrite Hc. reflexivity.
  - destruct (is_digit a); [|reflexivity].
    rewrite IH. destruct (span_digits p). reflexivity.
Qed.

Lemma match_version_app p c r :
  is_digit c = false -> Ascii.eqb c "." = false ->
  match_version p = None ->
  match_version (p ++ String c r) = None.
Proof.
  intros Hd Hdot. unfold match_version.
  rewrite span_digits_app by exact Hd.
  destruct (span_digits p) as [major r1]; simpl.
  destruct major as [|m major]; [reflexivity|].
  destruct r1 as [|a r1]; simpl.
  - rewrite Hdot. reflexivity.
  - destruct (Ascii.eqb a "."); [|reflexivity].
    rewrite span_digits_app by exact Hd.
    destruct (span_digits r1) as [minor r2]; simpl.
    destruct minor; [reflexivity|discriminate].
Qed.

(** A prefix without any version, closed by a character that is neither a
    digit nor the dot, is skipped by the search. *)
Lemma search_version_skip p c r :
  is_digit c = false -> Ascii.eqb c "." = false ->
  search_version p = None ->
  search_version (p ++ String c r) = search_version (String c r).
Proof.
  intros Hd Hdot. induction p as [|a p IH]; intros H; [reflexivity|].
  change (search_version (String a p ++ String c r))
    with (match match_version (String a p ++ String c r) with
          | Some v => Some v
          | None => search_version (p ++ String c r)
          end).
  change (search_version (String a p))
    with (match match_version (String a p) with
          | Some v => Some v
          | None => search_version p
          end) in H.
  destruct (match_version (String a p)) eqn:E; [discriminate|].
  rewrite (match_version_app _ _ _ Hd Hdot E). apply IH. exact H.
Qed.

(** A name that reads [v2.5.1] after a prefix without any version gives
    [2.5], whatever follows. *)
Lemma search_version_v2_5_1 before after :
  search_version before = None ->
  search_version (before ++ "v2.5.1" ++ after) = Some "2.5".
Proof.
  intros H.
  exact (eq_trans (search_version_skip before "v" ("2.5.1" ++ after)
                     eq_refl eq_refl H) eq_refl).
Qed.

Lemma filter_find {A} (f : A -> bool) (l : list A) (x : A) :
  find f l = Some x -> exists rest, filter f l = x :: rest.
Proof.
  induction l as [|a l IH]; simpl; [discriminate|].
  destruct (f a).
  - intros [= ->]. eexists; reflexivity.
  - exact IH.
Qed.

Lemma filter_none {A} (f : A -> bool) (l : list A) :
  (forall x, In x l -> f x = false) -> filter f l = [].
Proof.
  induction l as [|a l IH]; simpl; intros H; [reflexivity|].
  rewrite (H a) by (left; reflexivity). apply IH.
  intros x Hx. apply H. right. exact Hx.
Qed.

(** The exact-match step, whatever the tag name gives. *)
Lemma resolve_exact cache commit_date commit_sha exact :
  find (fun tag => String.eqb (tag_oid tag) commit_sha) cache = Some exact ->
  get_version_at_commit (Some cache) (inr commit_date) commit_sha
    = search_version (tag_name exact).
Proof.
  intros Hf. destruct (filter_find _ _ _ Hf) as [rest Hrest].
  destruct cache as [|newest tags]; [discriminate|].
  unfold get_version_at_commit, resolve_version.
  cbv beta iota delta [bind]. rewrite Hrest.
  destruct (search_version (tag_name exact)); reflexivity.
Qed.

(** C3, as amended: when the commit-date query does not raise and the first
    cached tag whose target is [commit_sha] has a name that reads [v2.5.1]
    after a prefix in which the version pattern has no match, resolution
    answers ["2.5"]. *)
Theorem exact_tag_v2_5_1 cache commit_date commit_sha exact before after :
  find (fun tag => String.eqb (tag_oid tag) commit_sha) cache = Some exact ->
  tag_name exact = before ++ "v2.5.1" ++ after ->
  search_version before = None ->
  get_version_at_commit (Some cache) (inr commit_date) commit_sha = Some "2.5".
Proof.
  intros Hf Hname Hbefore.
  rewrite (resolve_exact _ _ _ _ Hf), Hname.
  apply search_version_v2_5_1. exact Hbefore.
Qed.

(** An exact match whose name carries no version ends the resolution: the
    other tags and the commit date are not consulted. *)
Lemma exact_tag_unparseable cache commit_date commit_sha exact :
  find (fun tag => String.eqb (tag_oid tag) commit_sha) cache = Some exact ->
  search_version (tag_name exact) = None ->
  get_version_at_commit (Some cache) (inr commit_date) commit_sha = None.
Proof.
  intros Hf Hname. rewrite (resolve_exact _ _ _ _ Hf). exact Hname.
Qed.

(** *** The nearest tag by date *)

(** All the dates of a loaded cache were parsed when it was sorted. *)
Definition dates_parse (cache : list Tag) : Prop :=
  forall x, In x cache -> parse_timestamp (tag_date x) <> None.

(** The tag [x] is dated [d] seconds away from the commit, before it or
    after it: [d] is the absolute difference of the two times. *)
Definition apart (commit_timestamp : Z) (x : Tag) (d : Z) : Prop :=
  exists tag_time,
    parse_timestamp (tag_date x) = Some tag_time /\
    d = Z.abs (tag_time - commit_timestamp).

(** [closest] is the first tag of [cache] at the least absolute difference
    in time [d] from the commit: the tags before it are strictly farther,
    the tags after it are no nearer. *)
Definition first_minimum (commit_timestamp : Z) (cache : list Tag)
  (closest : Tag) : Prop :=
  exists before after d,
    cache = (before ++ closest :: after)%list /\
    apart commit_timestamp closest d /\
    (forall x, In x before ->
       exists dx, apart commit_timestamp x dx /\ d < dx) /\
    (forall x, In x after ->
       exists dx, apart commit_timestamp x dx /\ d <= dx).

(** *** What loading guarantees *)

Lemma keyed_parse tags :
  forall ks, keyed tags = inr ks ->
  forall k x, In (k, x) ks -> parse_timestamp (tag_date x) = Some k.
Proof.
  induction tags as [|a rest IH]; intros ks H k x Hin.
  - injection H as <-. destruct Hin.
  - cbn [keyed] in H. unfold timestamp in H.
    destruct (parse_timestamp (tag_date a)) as [ka|] eqn:Ea; [|discriminate].
    cbn [bind ret] in H.
    destruct (keyed rest) as [e|ks'] eqn:Er; [discriminate|].
    cbn [bind ret] in H. injection H as <-.
    destruct Hin as [[= <- <-] | Hin]; [exact Ea|].
    exact (IH ks' eq_refl k x Hin).
Qed.

Lemma insert_newest_first_in kx sorted ky :
  In ky (insert_newest_first kx sorted) -> ky = kx \/ In ky sorted.
Proof.
  induction sorted as [|kz rest IH]; simpl.
  - intros [<- | []]. left. reflexivity.
  - destruct (fst kx <? fst kz); simpl.
    + intros [<- | H]; [right; left; reflexivity|].
      destruct (IH H) as [-> | H']; [left; reflexivity | right; right; exact H'].
    + intros [<- | H]; [left; reflexivity | right; exact H].
Qed.

Lemma sorted_in ks ky :
  In ky (fold_right insert_newest_first [] ks) -> In ky ks.
Proof.
  induction ks as [|kx ks IH]; simpl; [auto|].
  intros H. destruct (insert_newest_first_in _ _ _ H) as [-> | H'].
  - left. reflexivity.
  - right. apply IH. exact H'.
Qed.

Lemma sort_newest_first_parse tags sorted :
  sort_newest_first tags = inr sorted -> dates_parse sorted.
Proof.
  unfold sort_newest_first. intros H.
  destruct (keyed tags) as [e|ks] eqn:Ek; [discriminate|].
  cbn [bind ret] in H. injection H as <-.
  intros x Hx. apply in_map_iff in Hx. destruct Hx as ([k y] & Hy & Hin).
  simpl in Hy. subst y. apply sorted_in in Hin.
  rewrite (keyed_parse tags ks Ek k x Hin). discriminate.
Qed.

(** The first load of a repository leaves the cache loaded, and every date
    of the cache it builds was parsed. *)
Lemma fresh_load_dates_parse listing cache :
  _tags_cache (_load_tags_cache fresh listing) = Some cache ->
  _tags_cache_loaded (_load_tags_cache fresh listing) = true /\
  dates_parse cache.
Proof.
  unfold _load_tags_cache, fresh. cbn [_tags_cache_loaded _tags_cache].
  destruct listing as [e|[[|r refs]|]]; cbn [bind ret _tags_cache];
    try discriminate.
  - intros [= <-]. split; [reflexivity | intros x []].
  - destruct (collect_tags (r :: refs) []) as [e|tags];
      cbn [bind ret _tags_cache].
    + intros [= <-]. split; [reflexivity | intros x []].
    + destruct (sort_newest_first tags) as [e|sorted] eqn:Es;
        cbn [bind ret _tags_cache _tags_cache_loaded].
      * intros [= <-]. split; [reflexivity | intros x []].
      * intros [= <-]. split; [reflexivity|].
        exact (sort_newest_first_parse tags sorted Es).
Qed.

Lemma tag_distance_total c x :
  parse_timestamp (tag_date x) <> None ->
  exists k, tag_distance c x = inr k.
Proof.
  intros H. unfold tag_distance, timestamp.
  destruct (parse_timestamp (tag_date x)); [|contradiction].
  eexists; reflexivity.
Qed.

(** [min_from] either keeps the best so far, no later tag being strictly
    nearer, or moves to the first later tag that is nearer than all before. *)
Lemma min_from_spec c l :
  dates_parse l ->
  forall best best_key,
  exists t,
    min_from c best best_key l = inr t /\
    ((t = best /\
      forall x, In x l -> exists kx, tag_distance c x = inr kx /\ best_key <= kx)
     \/
     exists l1 l2 k,
       l = (l1 ++ t :: l2)%list /\ tag_distance c t = inr k /\ k < best_key /\
       (forall x, In x l1 -> exists kx, tag_distance c x = inr kx /\ k < kx) /\
       (forall x, In x l2 -> exists kx, tag_distance c x = inr kx /\ k <= kx)).
Proof.
  induction l as [|a l IH]; intros Hp best best_key.
  - exists best. split; [reflexivity|]. left. split; [reflexivity|].
    intros x [].
  - assert (Hl : dates_parse l) by (intros x Hx; apply Hp; right; exact Hx).
    destruct (tag_distance_total c a (Hp a (or_introl eq_refl))) as [ka Hka].
    cbn [min_from]. rewrite Hka. cbn [bind].
    destruct (ka <? best_key) eqn:E.
    + apply Z.ltb_lt in E.
      destruct (IH Hl a ka) as (t & Ht & [[-> Hall] | (l1 & l2 & k & -> & Hk & Hlt & H1 & H2)]).
      * exists a. split; [exact Ht|]. right.
        exists [], l, ka. repeat split; try assumption.
        intros x [].
      * exists t. split; [exact Ht|]. right.
        exists (a :: l1), l2, k. repeat split; try assumption; try lia.
        intros x [<- | Hx]; [exists ka; split; [assumption|lia]|].
        apply H1. exact Hx.
    + apply Z.ltb_ge in E.
      destruct (IH Hl best best_key)
        as (t & Ht & [[-> Hall] | (l1 & l2 & k & -> & Hk & Hlt & H1 & H2)]).
      * exists best. split; [exact Ht|]. left. split; [reflexivity|].
        intros x [<- | Hx]; [exists ka; split; [assumption|lia]|].
        apply Hall. exact Hx.
      * exists t. split; [exact Ht|]. right.
        exists (a :: l1), l2, k. repeat split; try assumption.
        intros x [<- | Hx]; [exists ka; split; [assumption|lia]|].
        apply H1. exact Hx.
Qed.

(** The key of [min] is the absolute difference of the two times. *)
Lemma tag_distance_apart c x k :
  tag_distance c x = inr k <-> apart c x k.
Proof.
  unfold tag_distance, timestamp, apart.
  destruct (parse_timestamp (tag_date x)) as [t|]; cbn [bind ret raise]; split.
  - intros [= <-]. exists t. split; reflexivity.
  - intros (t' & [= <-] & ->). reflexivity.
  - discriminate.
  - intros (t' & Ht & _). discriminate.
Qed.

Lemma farther_apart c (P : Z -> Prop) (l : list Tag) :
  (forall x, In x l -> exists kx, tag_distance c x = inr kx /\ P kx) ->
  forall x, In x l -> exists dx, apart c x dx /\ P dx.
Proof.
  intros H x Hx. destruct (H x Hx) as (kx & Hk & HP).
  exists kx. split; [apply tag_distance_apart; exact Hk | exact HP].
Qed.

Lemma closest_tag_first_minimum c cache :
  cache <> [] -> dates_parse cache ->
  exists closest,
    closest_tag c cache = inr closest /\ first_minimum c cache closest.
Proof.
  intros Hne Hp. destruct cache as [|a l]; [contradiction|].
  assert (Hl : dates_parse l) by (intros x Hx; apply Hp; right; exact Hx).
  destruct (tag_distance_total c a (Hp a (or_introl eq_refl))) as [ka Hka].
  cbn [closest_tag]. rewrite Hka. cbn [bind].
  destruct (min_from_spec c l Hl a ka)
    as (t & Ht & [[-> Hall] | (l1 & l2 & k & -> & Hk & Hlt & H1 & H2)]).
  - exists a. split; [exact Ht|].
    exists [], l, ka. split; [reflexivity|].
    split; [apply tag_distance_apart; exact Hka|].
    split; [intros x []|].
    exact (farther_apart c (fun kx => ka <= kx) l Hall).
  - exists t. split; [exact Ht|].
    exists (a :: l1), l2, k. split; [reflexivity|].
    split; [apply tag_distance_apart; exact Hk|].
    split; [|exact (farther_apart c (fun kx => k <= kx) l2 H2)].
    apply (farther_apart c (fun kx => k < kx)).
    intros x [<- | Hx]; [exists ka; split; [assumption|lia]|].
    apply H1. exact Hx.
Qed.

(** With no exact match and a known commit date, the version is read off the
    closest tag, and off the newest tag when that name carries none. *)
Lemma resolve_by_date cache commit_date commit_timestamp commit_sha closest :
  (forall x, In x cache -> String.eqb (tag_oid x) commit_sha = false) ->
  truthy (Some commit_date) = true ->
  parse_timestamp commit_date = Some commit_timestamp ->
  closest_tag commit_timestamp cache = inr closest ->
  get_version_at_commit (Some cache) (inr (Some commit_date)) commit_sha =
    match search_version (tag_name closest) with
    | Some version => Some version
    | None => search_version (tag_name (hd closest cache))
    end.
Proof.
  intros Hno Ht Hd Hc.
  destruct cache as [|newest tags]; [discriminate|].
  unfold get_version_at_commit, resolve_version.
  cbv beta iota delta [bind].
  rewrite (filter_none _ _ Hno), Ht. unfold timestamp. rewrite Hd.
  cbv beta iota delta [ret]. rewrite Hc.
  cbn [hd]. destruct (search_version (tag_name closest)); reflexivity.
Qed.

Lemma closest_of_two_later c far near :
  apart c far (10 * 86400) ->
  apart c near (2 * 86400) ->
  closest_tag c [far; near] = inr near.
Proof.
  intros Hf Hn. apply tag_distance_apart in Hf, Hn.
  cbn [closest_tag min_from]. rewrite Hf. cbn [bind].
  rewrite Hn. reflexivity.
Qed.

Lemma closest_of_two_earlier c far near :
  apart c far (10 * 86400) ->
  apart c near (2 * 86400) ->
  closest_tag c [near; far] = inr near.
Proof.
  intros Hf Hn. apply tag_distance_apart in Hf, Hn.
  cbn [closest_tag min_from]. rewrite Hn. cbn [bind].
  rewrite Hf. reflexivity.
Qed.

(** C5: on a loaded non-empty cache with no tag on [commit_sha] and a known
    commit date, resolution selects the first tag of the cache at the least
    absolute difference [|tag time - commit time|], and reads the version
    off it; of two tags dated ten days and two days away from the commit,
    on either side of it and in either cache order, it selects the one two
    days away. *)
Theorem nearest_tag_selected cache commit_date commit_timestamp commit_sha :
  cache <> [] ->
  dates_parse cache ->
  (forall x, In x cache -> String.eqb (tag_oid x) commit_sha = false) ->
  truthy (Some commit_date) = true ->
  parse_timestamp commit_date = Some commit_timestamp ->
  exists closest,
    closest_tag commit_timestamp cache = inr closest /\
    first_minimum commit_timestamp cache closest /\
    get_version_at_commit (Some cache) (inr (Some commit_date)) commit_sha =
      match search_version (tag_name closest) with
      | Some version => Some version
      | None => search_version (tag_name (hd closest cache))
      end /\
    (forall far near far_time near_time,
       parse_timestamp (tag_date far) = Some far_time ->
       parse_timestamp (tag_date near) = Some near_time ->
       Z.abs (far_time - commit_timestamp) = 10 * 86400 ->
       Z.abs (near_time - commit_timestamp) = 2 * 86400 ->
       cache = [far; near] \/ cache = [near; far] ->
       closest = near).
Proof.
  intros Hne Hp Hno Ht Hd.
  destruct (closest_tag_first_minimum commit_timestamp cache Hne Hp)
    as (closest & Hc & Hmin).
  exists closest. split; [exact Hc|]. split; [exact Hmin|]. split.
  - apply (resolve_by_date _ _ commit_timestamp); assumption.
  - intros far near far_time near_time Hft Hnt Hfd Hnd Hcache.
    assert (Hf : apart commit_timestamp far (10 * 86400))
      by (exists far_time; split; [exact Hft | symmetry; exact Hfd]).
    assert (Hn : apart commit_timestamp near (2 * 86400))
      by (exists near_time; split; [exact Hnt | symmetry; exact Hnd]).
    destruct Hcache as [-> | ->].
    + rewrite (closest_of_two_later _ _ _ Hf Hn) in Hc. congruence.
    + rewrite (closest_of_two_earlier _ _ _ Hf Hn) in Hc. congruence.
Qed.

End Resolver.

(** *** A concrete clock for the dates of the remote API *)

(** Days from 1970-01-01 to a civil date of the proleptic Gregorian calendar. *)
Definition days_from_civil (y m d : Z) : Z :=
  let y := if m <=? 2 then y - 1 else y in
  let era := y / 400 in
  let yoe := y - era * 400 in
  let mp := if 2 <? m then m - 3 else m + 9 in
  let doy := (153 * mp + 2) / 5 + d - 1 in
  let doe := yoe * 365 + yoe / 4 - yoe / 100 + doy in
  era * 146097 + doe - 719468.

Definition field (s : string) (start len : nat) : option Z :=
  digits_value 0 (substring start len s).

Definition in_bounds (lo x hi : Z) : bool := (lo <=? x) && (x <=? hi).

(** Seconds since the epoch of a date written [YYYY-MM-DDTHH:MM:SSZ], read as
    UTC: what [dateutil] answers on the dates of the remote API. *)
Definition utc_timestamp (s : string) : option Z :=
  if negb (Nat.eqb (String.length s) 20) then None
  else if negb (String.eqb (substring 4 1 s) "-"
                && String.eqb (substring 7 1 s) "-"
                && String.eqb (substring 10 1 s) "T"
                && String.eqb (substring 13 1 s) ":"
                && String.eqb (substring 16 1 s) ":"
                && String.eqb (substring 19 1 s) "Z") then None
  else
    match field s 0 4, field s 5 2, field s 8 2,
          field s 11 2, field s 14 2, field s 17 2 with
    | Some y, Some m, Some d, Some hh, Some mm, Some ss =>
      if in_bounds 1 m 12 && in_bounds 1 d 31 && in_bounds 0 hh 23
         && in_bounds 0 mm 59 && in_bounds 0 ss 59
      then Some (days_from_civil y m d * 86400 + hh * 3600 + mm * 60 + ss)
      else None
    | _, _, _, _, _, _ => None
    end.

(** [time.mktime(time.strptime(s, "%Y-%m-%dT%H:%M:%SZ"))] on a host whose
    local time is [utc_offset] seconds ahead of UTC: [mktime] reads the
    broken-down time as local time, whatever the literal [Z] says. *)
Definition local_mktime (utc_offset : Z) (s : string) : option Z :=
  option_map (fun t => t - utc_offset) (utc_timestamp s).

(** *** The resolver on concrete caches *)

Definition tag_py38 : Tag :=
  {| tag_name := "py3.8-v2.5.1"; tag_oid := "abc123";
     tag_date := "2024-01-01T00:00:00Z" |}.

Definition tag_v1_0 : Tag :=
  {| tag_name := "v1.0"; tag_oid := "abc123";
     tag_date := "2024-01-01T00:00:00Z" |}.

Definition tag_v2_5_1 : Tag :=
  {| tag_name := "v2.5.1"; tag_oid := "abc123";
     tag_date := "2024-01-01T00:00:00Z" |}.

(** C3 fails as stated.  A cached tag on the queried commit is named
    [py3.8-v2.5.1]: the leftmost match of the pattern is [3.8].  And a cache
    holds [v1.0] before [v2.5.1], both on the queried commit: the first
    exact match is read.  In both the queried commit has a tag whose name
    contains [v2.5.1], and the answer is not ["2.5"]. *)
Lemma exact_tag_counterexample :
  (contains "v2.5.1" (tag_name tag_py38) = true /\
   tag_oid tag_py38 = "abc123" /\
   get_version_at_commit utc_timestamp (Some [tag_py38])
     (inr (Some "2024-01-01T00:00:00Z")) "abc123" = Some "3.8") /\
  (contains "v2.5.1" (tag_name tag_v2_5_1) = true /\
   tag_oid tag_v2_5_1 = "abc123" /\
   get_version_at_commit utc_timestamp (Some [tag_v1_0; tag_v2_5_1])
     (inr (Some "2024-01-01T00:00:00Z")) "abc123" = Some "1.0").
Proof. repeat split; reflexivity. Qed.

Lemma exact_tag_v2_5_1_witness :
  get_version_at_commit utc_timestamp
    (Some [{| tag_name := "release-v2.5.1"; tag_oid := "abc123";
              tag_date := "2024-01-01T00:00:00Z" |}])
    (inr (Some "2024-01-01T00:00:00Z")) "abc123" = Some "2.5".
Proof.
  refine (exact_tag_v2_5_1 utc_timestamp _ _ "abc123"
            {| tag_name := "release-v2.5.1"; tag_oid := "abc123";
               tag_date := "2024-01-01T00:00:00Z" |} "release-" "" _ _ _).
  - reflexivity.
  - reflexivity.
  - reflexivity.
Defined.

Definition tag_v1_2_0 : Tag :=
  {| tag_name := "v1.2.0"; tag_oid := "def456";
     tag_date := "2024-03-10T00:00:00Z" |}.

Definition tag_nightly : Tag :=
  {| tag_name := "nightly"; tag_oid := "abc123";
     tag_date := "2024-03-01T00:00:00Z" |}.

(** C4, at the failing input: the cache, newest first, holds [v1.2.0] and
    then [nightly], the latter on the queried commit, whose date is known.
    The exact match carries no version and resolution answers not-found; it
    reaches neither the nearest-by-date step nor the newest-tag fallback,
    which on the same cache give ["1.2"] to a commit no tag points to. *)
Theorem exact_unparseable_not_found :
  search_version (tag_name tag_nightly) = None /\
  search_version (tag_name tag_v1_2_0) = Some "1.2" /\
  get_version_at_commit utc_timestamp (Some [tag_v1_2_0; tag_nightly])
    (inr (Some "2024-03-01T00:00:00Z")) "abc123" = None /\
  get_version_at_commit utc_timestamp (Some [tag_v1_2_0; tag_nightly])
    (inr (Some "2024-03-01T00:00:00Z")) "0ther" = Some "1.2".
Proof. repeat split; reflexivity. Qed.

Definition tag_ten_days : Tag :=
  {| tag_name := "v3.1.0"; tag_oid := "aaa111";
     tag_date := "2024-01-21T00:00:00Z" |}.

Definition tag_two_days : Tag :=
  {| tag_name := "v3.0.2"; tag_oid := "bbb222";
     tag_date := "2024-01-09T00:00:00Z" |}.

Lemma nearest_tag_selected_witness :
  exists closest,
    closest_tag utc_timestamp 1704931200 [tag_ten_days; tag_two_days]
      = inr closest /\
    closest = tag_two_days /\
    get_version_at_commit utc_timestamp (Some [tag_ten_days; tag_two_days])
      (inr (Some "2024-01-11T00:00:00Z")) "ccc333" = Some "3.0".
Proof.
  destruct (nearest_tag_selected utc_timestamp [tag_ten_days; tag_two_days]
              "2024-01-11T00:00:00Z" 1704931200 "ccc333")
    as (closest & Hc & _ & Hv & Hnear).
  - discriminate.
  - intros x [<- | [<- | []]]; vm_compute; discriminate.
  - intros x [<- | [<- | []]]; reflexivity.
  - reflexivity.
  - reflexivity.
  - exists closest.
    assert (E : closest = tag_two_days).
    { apply (Hnear tag_ten_days tag_two_days 1705795200 1704758400);
        [reflexivity | reflexivity | reflexivity | reflexivity
        | left; reflexivity]. }
    split; [exact Hc|]. split; [exact E|].
    rewrite Hv, E. reflexivity.
Defined.

(** *** The paginator, [Repo.get_all_loop] *)

(** What one [self.call_api(query, variables)] does for the paginator. *)
Inductive api_outcome : Type :=
| ApiRaised (e : exn)
| ApiReturned (response : option Response).

(** The local variable [response]: unbound before the first call returns. *)
Inductive binding : Type :=
| Unbound
| Bound (response : option Response).

(** How the generator ends: it returns once its loop has broken and the
    statement after the loop has run, an exception leaves it, or it stays
    for ever in the wait loop of the handler. *)
Inductive gen_end : Type :=
| Finished
| GenRaised (e : exn)
| GenWaiting.

Record loop_state : Type := {
  page : Z;
  after : json;
  response : binding
}.

(** One iteration of [while True]: the values it yields, then the state of
    the next iteration or the end of the generator. *)
Inductive step : Type :=
| Continue (yielded : list json) (st : loop_state)
| Stop (yielded : list json) (e : gen_end).

(** [for key in data_path: data = data[key]]. *)
Fixpoint navigate (data_path : list string) (data : json) : result json :=
  match data_path with
  | [] => ret data
  | key :: keys => (d <- subscript data key ;; navigate keys d)%py
  end.

(** [len(v)]. *)
Definition py_len (v : json) : result Z :=
  match v with
  | JStr s => ret (Z.of_nat (String.length s))
  | JArr items => ret (Z.of_nat (List.length items))
  | JObj fields => ret (Z.of_nat (List.length fields))
  | _ => raise TypeError
  end.

Section Paginator.

Variable py_int : string -> option Z.

(** The arguments of [get_all_loop]. *)
Variable data_path : list string.
Variable num_pages : option Z.
Variable quiet : bool.

(** The [i]-th call of [call_api], with [variables["after"]]. *)
Variable api : nat -> json -> api_outcome.

(** The [except Exception] handler: it reads the quota header of whatever
    [response] is bound to, and goes round the outer loop again when the
    quota is positive; otherwise it sleeps and re-reads the same header. *)
Definition on_error (yielded : list json) (st : loop_state) : step :=
  match response st with
  | Unbound => Stop yielded (GenRaised (UnboundLocalError "response"))
  | Bound None => Stop yielded (GenRaised AttributeError)
  | Bound (Some r) =>
    match int_of_header py_int (x_ratelimit_remaining r) with
    | inl e => Stop yielded (GenRaised e)
    | inr rl => if 0 <? rl then Continue yielded st else Stop yielded GenWaiting
    end
  end.

Definition reaches_page_bound (pg : Z) : bool :=
  match num_pages with
  | Some n => n <=? pg
  | None => false
  end.

(** The statement after the loop, which every [break] reaches: unless
    [quiet], the closing log line reads [len(values)], the [values] of the
    iteration that broke, outside the [try]. *)
Definition after_loop (values : json) : gen_end :=
  if quiet then Finished
  else
    match py_len values with
    | inl e => GenRaised e
    | inr _ => Finished
    end.

Definition page_step (i : nat) (st : loop_state) : step :=
  match api i (after st) with
  | ApiRaised _ => on_error [] st
  | ApiReturned resp =>
    let st1 := {| page := page st; after := after st; response := Bound resp |} in
    match resp with
    | None => on_error [] st1
    | Some r =>
      match json_body r with
      | None => on_error [] st1
      | Some body =>
        match (data <- navigate data_path body ;;
               values <- subscript data "nodes" ;;
               ret (data, values))%py with
        | inl _ => on_error [] st1
        | inr (data, values) =>
          if negb (json_truthy values) then Stop [] (after_loop values)
          else
            match iterate values with
            | inl _ => on_error [] st1
            | inr items =>
              match (if quiet then ret 0
                     else int_of_header py_int (x_ratelimit_remaining r)) with
              | inl _ => on_error items st1
              | inr _ =>
                if reaches_page_bound (page st)
                then Stop items (after_loop values)
                else
                  match (page_info <- subscript data "pageInfo" ;;
                         subscript page_info "hasNextPage")%py with
                  | inl _ => on_error items st1
                  | inr has_next =>
                    if negb (json_truthy has_next)
                    then Stop items (after_loop values)
                    else
                      match (page_info <- subscript data "pageInfo" ;;
                             subscript page_info "endCursor")%py with
                      | inl _ => on_error items st1
                      | inr cursor =>
                        Continue items {| page := page st + 1;
                                          after := cursor;
                                          response := Bound resp |}
                      end
                  end
              end
            end
        end
      end
    end
  end.

(** The generator from its [i]-th call on: all it yields, and how it ends
    within [fuel] further iterations, [None] when it has not ended by then. *)
Fixpoint get_all_loop_from (fuel : nat) (i : nat) (st : loop_state)
  : list json * option gen_end :=
  match page_step i st with
  | Stop yielded e => (yielded, Some e)
  | Continue yielded st' =>
    match fuel with
    | O => (yielded, None)
    | S fuel' =>
      let (later, e) := get_all_loop_from fuel' (S i) st' in
      (List.app yielded later, e)
    end
  end.

Definition get_all_loop (fuel : nat) : list json * option gen_end :=
  get_all_loop_from fuel 0 {| page := 1; after := JNull; response := Unbound |}.

(** The page the [i]-th call fetches holds [values] as its [nodes], and
    [values] is empty: [not values] holds. *)
Definition empty_page (values : json) (i : nat) (cursor : json) : Prop :=
  (exists r body data,
     api i cursor = ApiReturned (Some r) /\
     json_body r = Some body /\
     navigate data_path body = inr data /\
     subscript data "nodes" = inr values) /\
  json_truthy values = false.

Lemma empty_page_stops values i st :
  empty_page values i (after st) ->
  page_step i st = Stop [] (after_loop values).
Proof.
  intros [(r & body & data & Ha & Hb & Hd & Hv) Ht].
  unfold page_step. rewrite Ha, Hb, Hd. cbn [bind]. rewrite Hv. cbn [bind ret].
  rewrite Ht. reflexivity.
Qed.

(** What is empty and has no length: [None], [0] and [False]. *)
Lemma after_loop_empty values :
  json_truthy values = false ->
  after_loop values =
    if quiet then Finished
    else match values with
         | JNull | JBool _ | JNum _ => GenRaised TypeError
         | _ => Finished
         end.
Proof. intros _. unfold after_loop. destruct values; reflexivity. Qed.

(** Once some call is bound to fetch an empty page, the generator ends
    before that call is passed, and more fuel changes nothing. *)
Lemma ends_by_empty_page d :
  forall i st fuel,
    (forall cursor, exists values, empty_page values (i + d) cursor) ->
    (d <= fuel)%nat ->
    get_all_loop_from fuel i st = get_all_loop_from d i st /\
    snd (get_all_loop_from fuel i st) <> None.
Proof.
  induction d as [|d IH]; intros i st fuel Hempty Hfuel.
  - rewrite Nat.add_0_r in Hempty.
    destruct (Hempty (after st)) as [values Hvalues].
    pose proof (empty_page_stops values i st Hvalues) as E.
    destruct fuel; cbn [get_all_loop_from]; rewrite E; split;
      try reflexivity; discriminate.
  - destruct fuel as [|fuel]; [lia|].
    cbn [get_all_loop_from].
    destruct (page_step i st) as [yielded st'|yielded e].
    + assert (Hempty' : forall cursor,
                 exists values, empty_page values (S i + d) cursor)
        by (intros cursor; replace (S i + d)%nat with (i + S d)%nat by lia;
            apply Hempty).
      destruct (IH (S i) st' fuel Hempty' ltac:(lia)) as [E N].
      rewrite E in *. destruct (get_all_loop_from d (S i) st'); split;
        [reflexivity | exact N].
    + split; [reflexivity | discriminate].
Qed.

(** C8: a fetched page whose [nodes] is empty ends the generator at once:
    the iteration yields nothing and breaks, whatever [pageInfo] and the page
    bound [num_pages] are, and the generator goes to the statement after the
    loop.  It ends there: normally when [nodes] is an empty list, whatever
    [quiet] is; with the [TypeError] of [len(values)] when [quiet] is off and
    [nodes] is [None], [0] or [False].  Hence, when the [k]-th call is bound
    to fetch such a page, the generator has ended by then, and the sequence
    it produces is the finite one of its first [k] iterations. *)
Theorem empty_page_ends_iteration k values :
  (forall cursor, empty_page values k cursor) ->
  (forall st, page_step k st = Stop [] (after_loop values)) /\
  (forall st fuel,
     get_all_loop_from fuel k st = ([], Some (after_loop values))) /\
  after_loop values =
    (if quiet then Finished
     else match values with
          | JNull | JBool _ | JNum _ => GenRaised TypeError
          | _ => Finished
          end) /\
  (values = JArr [] -> after_loop values = Finished) /\
  (forall fuel, (k <= fuel)%nat ->
     get_all_loop fuel = get_all_loop k /\
     exists yielded e, get_all_loop fuel = (yielded, Some e)).
Proof.
  intros Hempty.
  assert (Hstop : forall st, page_step k st = Stop [] (after_loop values))
    by (intros st; apply empty_page_stops, Hempty).
  assert (Hfalsy : json_truthy values = false) by exact (proj2 (Hempty JNull)).
  split; [exact Hstop|]. split; [|split; [|split]].
  - intros st fuel. destruct fuel; cbn [get_all_loop_from];
      rewrite Hstop; reflexivity.
  - exact (after_loop_empty values Hfalsy).
  - intros ->. unfold after_loop. destruct quiet; reflexivity.
  - intros fuel Hfuel. unfold get_all_loop.
    destruct (ends_by_empty_page k 0%nat
                {| page := 1; after := JNull; response := Unbound |} fuel
                (fun cursor => ex_intro _ values (Hempty cursor)) Hfuel)
      as [E N].
    split; [exact E|].
    destruct (get_all_loop_from fuel 0 _) as [yielded [e|]].
    + exists yielded, e. reflexivity.
    + elim N. reflexivity.
Qed.

End Paginator.

(** *** The instance assembler *)

(** A commit of a pull request, a comment of an issue, an issue, a pull
    request: the fields the assembler reads. *)
Record CommitNode : Type := {
  commit_author_date : string;
  commit_url : string
}.

Record Comment : Type := {
  body : string;
  updatedAt : string
}.

Record Issue : Type := {
  issue_title : option string;
  issue_body : option string;
  issue_number : Z
}.

Record Pull : Type := {
  number : Z;
  resolved_issues : list Z;
  diff_url : string
}.

(** A file of a parsed diff: [hunk.path] and [str(hunk)]. *)
Record PatchedFile : Type := {
  path : string;
  text : string
}.

(** What [extract_problem_statement_and_hints] returns: the four values of
    the generic path, or the two of the legacy ticket tracker. *)
Inductive statement : Type :=
| Generic (problem_text hint_text all_hint_text : string)
          (commit_urls : list string)
| Legacy (text : string) (all_hints_text : list (string * Z)).

(** The accumulators of the loop over the resolved issues; [commit_urls] is
    unbound until an iteration assigns it. *)
Record statement_acc : Type := {
  acc_problem_text : string;
  acc_hint_text : string;
  acc_all_hint_text : string;
  acc_commit_urls : option (list string)
}.

Definition concat_text (parts : list string) : string :=
  fold_right append "" parts.

Definition test_words : list string := ["test"; "tests"; "e2e"; "testing"].

(** [any(test_word in hunk.path for test_word in [...])]. *)
Definition is_test_path (p : string) : bool :=
  existsb (fun test_word => contains test_word p) test_words.

(** The loop of [extract_patches] over the files of the diff. *)
Fixpoint split_patch (files : list PatchedFile) (patch_test patch_fix : string)
  : string * string :=
  match files with
  | [] => (patch_fix, patch_test)
  | hunk :: rest =>
    if is_test_path (path hunk)
    then split_patch rest (patch_test ++ text hunk) patch_fix
    else split_patch rest patch_test (patch_fix ++ text hunk)
  end.

Section Assembler.

(** The remote services behind a [Repo]: [World] is their state.  A call
    answers with the new state and returns or raises. *)
Variable World : Type.

Definition M (A : Type) : Type := World -> World * result A.

Definition mret {A} (a : A) : M A := fun w => (w, inr a).
Definition mraise {A} (e : exn) : M A := fun w => (w, inl e).
Definition lift {A} (r : result A) : M A := fun w => (w, r).
Definition mbind {A B} (m : M A) (k : A -> M B) : M B :=
  fun w =>
    match m w with
    | (w1, inl e) => (w1, inl e)
    | (w1, inr a) => k a w1
    end.

Notation "x <~ m ;; k" := (mbind m (fun x => k))
  (at level 61, m at next level, right associativity).

(** [parser.parse(s).timestamp()] of [dateutil], and
    [time.mktime(time.strptime(s, "%Y-%m-%dT%H:%M:%SZ"))]; [None] when they
    raise. *)
Variable parse_timestamp : string -> option Z.
Variable mktime_strptime : string -> option Z.

(** [list(repo.get_pull_commits(n))], [list(repo.get_issue_comments(n))]. *)
Variable get_pull_commits : Z -> M (list CommitNode).
Variable get_issue_comments : Z -> M (list Comment).

(** [repo.get_issue(n)] and then [issue.json()["data"]["repository"]["issue"]]:
    [None] when the call returned [None], [Some None] when the issue is
    [null]. *)
Variable get_issue : Z -> M (option (option Issue)).

(** [wrapped_requests_get(url)]: [None], or the [text] of the response. *)
Variable wrapped_requests_get : string -> M (option string).

(** [PatchSet(patch)] of [unidiff]. *)
Variable PatchSet : string -> result (list PatchedFile).

(** The body of the loop of the legacy ticket tracker, over its two
    accumulators. *)
Variable legacy_ticket :
  Pull -> Z -> string * list (string * Z) -> M (string * list (string * Z)).

Definition comment_time (comment : Comment) : result Z :=
  match mktime_strptime (updatedAt comment) with
  | Some t => ret t
  | None => raise ValueError
  end.

(** The loop of [_extract_hints] over the comments of the issue. *)
Fixpoint select_hints (commit_time : Z) (all_issue_comments : list Comment)
  (issue_hint_comments issue_all_comments : list Comment)
  : result (list Comment * list Comment) :=
  match all_issue_comments with
  | [] => ret (issue_hint_comments, issue_all_comments)
  | comment :: rest =>
    (t <- comment_time comment ;;
     select_hints commit_time rest
       (if t <? commit_time
        then List.app issue_hint_comments [comment]
        else issue_hint_comments)
       (List.app issue_all_comments [comment]))%py
  end.

Definition _extract_hints (pull : Pull) (issue_number : Z)
  : M (string * string * list string) :=
  commits <~ get_pull_commits (number pull) ;;
  match commits with
  | [] => mret ("", "", [])
  | first :: _ =>
    commit_time <~ lift (timestamp parse_timestamp (commit_author_date first)) ;;
    let commit_urls := map commit_url commits in
    all_issue_comments <~ get_issue_comments issue_number ;;
    selected <~ lift (select_hints commit_time all_issue_comments [] []) ;;
    let (issue_hint_comments, issue_all_comments) := selected in
    if (List.length issue_hint_comments <=? List.length issue_all_comments)%nat
    then mret (join newline (map body issue_hint_comments),
               join newline (map body issue_all_comments),
               commit_urls)
    else mraise AssertionError
  end.

(** One iteration of the loop of [extract_problem_statement_and_hints]. *)
Definition issue_step (pull : Pull) (n : Z) (acc : statement_acc)
  : M statement_acc :=
  issue <~ get_issue n ;;
  match issue with
  | None => mret acc
  | Some None => mraise TypeError
  | Some (Some issue) =>
    let title := if truthy (issue_title issue)
                 then match issue_title issue with Some s => s | None => "" end
                 else "" in
    let body := if truthy (issue_body issue)
                then match issue_body issue with Some s => s | None => "" end
                else "" in
    hints <~ _extract_hints pull (issue_number issue) ;;
    let '(single_hint, single_all_hint, commit_urls) := hints in
    mret {| acc_problem_text :=
              acc_problem_text acc ++ title ++ newline ++ body ++ newline;
            acc_hint_text := acc_hint_text acc ++ single_hint ++ newline ++ newline;
            acc_all_hint_text :=
              acc_all_hint_text acc ++ single_all_hint ++ newline ++ newline;
            acc_commit_urls := Some commit_urls |}
  end.

Fixpoint issues_loop (pull : Pull) (issues : list Z) (acc : statement_acc)
  : M statement_acc :=
  match issues with
  | [] => mret acc
  | n :: rest => acc' <~ issue_step pull n acc ;; issues_loop pull rest acc'
  end.

Fixpoint legacy_loop (pull : Pull) (issues : list Z)
  (acc : string * list (string * Z)) : M (string * list (string * Z)) :=
  match issues with
  | [] => mret acc
  | n :: rest => acc' <~ legacy_ticket pull n acc ;; legacy_loop pull rest acc'
  end.

Definition extract_problem_statement_and_hints_django (pull : Pull)
  : M statement :=
  acc <~ legacy_loop pull (resolved_issues pull) ("", []) ;;
  mret (Legacy (fst acc) (snd acc)).

Definition initial_acc : statement_acc :=
  {| acc_problem_text := ""; acc_hint_text := ""; acc_all_hint_text := "";
     acc_commit_urls := None |}.

(** [repo_name] is [repo.name].  Returning reads [commit_urls], which raises
    [UnboundLocalError], a [NameError], when no iteration assigned it. *)
Definition extract_problem_statement_and_hints (pull : Pull)
  (repo_name : string) : M statement :=
  if String.eqb repo_name "django"
  then extract_problem_statement_and_hints_django pull
  else
    acc <~ issues_loop pull (resolved_issues pull) initial_acc ;;
    match acc_commit_urls acc with
    | Some commit_urls =>
      mret (Generic (acc_problem_text acc) (acc_hint_text acc)
                    (acc_all_hint_text acc) commit_urls)
    | None => mraise (UnboundLocalError "commit_urls")
    end.

Definition extract_patches (pull : Pull) : M (string * string) :=
  response <~ wrapped_requests_get (diff_url pull) ;;
  match response with
  | None => mraise AttributeError
  | Some patch =>
    files <~ lift (PatchSet patch) ;;
    mret (split_patch files "" "")
  end.

(** *** Patch splitting *)

Lemma append_assoc (a b c : string) : (a ++ b) ++ c = a ++ (b ++ c).
Proof. induction a as [|x a IH]; simpl; [reflexivity | rewrite IH; reflexivity]. Qed.

Lemma append_empty (a : string) : a ++ "" = a.
Proof. induction a as [|x a IH]; simpl; [reflexivity | rewrite IH; reflexivity]. Qed.

(** The loop appends the text of each file to one of the two patches, in the
    order of the diff. *)
Lemma split_patch_spec files :
  forall patch_test patch_fix,
    split_patch files patch_test patch_fix =
      (patch_fix ++ concat_text (map text
         (filter (fun hunk => negb (is_test_path (path hunk))) files)),
       patch_test ++ concat_text (map text
         (filter (fun hunk => is_test_path (path hunk)) files))).
Proof.
  induction files as [|hunk rest IH]; intros patch_test patch_fix; simpl.
  - rewrite !append_empty. reflexivity.
  - destruct (is_test_path (path hunk)); simpl; rewrite IH, append_assoc;
      reflexivity.
Qed.

Lemma is_test_path_iff p :
  is_test_path p = true <->
  exists test_word,
    In test_word ["test"; "tests"; "e2e"; "testing"] /\
    contains test_word p = true.
Proof. unfold is_test_path. apply existsb_exists. Qed.

(** C7: [extract_patches] sends the text of every file of the diff whose path
    contains one of [test], [tests], [e2e], [testing] to the test patch and
    the text of every other file to the fix patch, each in diff order; a diff
    of [src/app.py] and [tests/test_app.py] puts the first in the fix patch
    and the second in the test patch. *)
Theorem extract_patches_partition pull w w1 patch files :
  wrapped_requests_get (diff_url pull) w = (w1, inr (Some patch)) ->
  PatchSet patch = inr files ->
  extract_patches pull w =
    (w1, inr (concat_text (map text
                (filter (fun hunk => negb (is_test_path (path hunk))) files)),
              concat_text (map text
                (filter (fun hunk => is_test_path (path hunk)) files)))) /\
  (forall hunk,
     is_test_path (path hunk) = true <->
     exists test_word,
       In test_word ["test"; "tests"; "e2e"; "testing"] /\
       contains test_word (path hunk) = true) /\
  (forall app_hunk test_hunk,
     files = [app_hunk; test_hunk] ->
     path app_hunk = "src/app.py" ->
     path test_hunk = "tests/test_app.py" ->
     extract_patches pull w = (w1, inr (text app_hunk, text test_hunk))).
Proof.
  intros Hget Hparse.
  assert (E : extract_patches pull w = (w1, inr (split_patch files "" ""))).
  { unfold extract_patches, mbind, lift, mret. rewrite Hget, Hparse. reflexivity. }
  split; [|split].
  - rewrite E, split_patch_spec. reflexivity.
  - intros hunk. apply is_test_path_iff.
  - intros app_hunk test_hunk -> Happ Htest. rewrite E.
    cbn [split_patch]. rewrite Happ, Htest. reflexivity.
Qed.

(** *** Hints *)

Definition before_first_commit (commit_time : Z) (comment : Comment) : bool :=
  match mktime_strptime (updatedAt comment) with
  | Some t => t <? commit_time
  | None => false
  end.

(** The hint comments are the comments whose [mktime] time is strictly
    before the commit time, in order; all comments are kept. *)
Lemma select_hints_spec commit_time comments :
  (forall c, In c comments -> mktime_strptime (updatedAt c) <> None) ->
  forall hint all,
    select_hints commit_time comments hint all =
      inr (List.app hint (filter (before_first_commit commit_time) comments),
           List.app all comments).
Proof.
  induction comments as [|c rest IH]; intros Hp hint all; simpl.
  - rewrite !app_nil_r. reflexivity.
  - unfold comment_time, before_first_commit.
    specialize (Hp c (or_introl eq_refl)) as Hc.
    destruct (mktime_strptime (updatedAt c)) as [t|]; [|contradiction].
    cbn [bind ret]. rewrite IH by (intros x Hx; apply Hp; right; exact Hx).
    destruct (t <? commit_time); rewrite <- !app_assoc; reflexivity.
Qed.

Lemma filter_length_le {A} (f : A -> bool) (l : list A) :
  (List.length (filter f l) <= List.length l)%nat.
Proof.
  induction l as [|a l IH]; simpl; [lia|].
  destruct (f a); simpl; lia.
Qed.

(** [_extract_hints] on a pull request with commits: the assertion holds, the
    hint text joins the bodies of the comments the cutoff keeps and the
    all-hints text joins the bodies of all comments. *)
Lemma extract_hints_spec pull n w w1 w2 first commits commit_time comments :
  get_pull_commits (number pull) w = (w1, inr (first :: commits)) ->
  parse_timestamp (commit_author_date first) = Some commit_time ->
  get_issue_comments n w1 = (w2, inr comments) ->
  (forall c, In c comments -> mktime_strptime (updatedAt c) <> None) ->
  _extract_hints pull n w =
    (w2, inr (join newline
                (map body (filter (before_first_commit commit_time) comments)),
              join newline (map body comments),
              map commit_url (first :: commits))).
Proof.
  intros Hc Ht Hm Hp.
  unfold _extract_hints, mbind, lift, mret, timestamp.
  rewrite Hc, Ht. cbn [ret]. rewrite Hm.
  rewrite (select_hints_spec commit_time comments Hp [] []). cbn [List.app].
  pose proof (filter_length_le (before_first_commit commit_time) comments) as L.
  apply Nat.leb_le in L. rewrite L. reflexivity.
Qed.

(** Where the two clocks agree on the comments (a host on UTC), the cutoff is
    the one of the instants: a comment updated before the first commit is
    kept as a hint, a comment updated after it is not. *)
Lemma hints_cut_when_clocks_agree commit_time comments c t1 :
  (forall x, In x comments ->
     mktime_strptime (updatedAt x) = parse_timestamp (updatedAt x)) ->
  In c comments ->
  parse_timestamp (updatedAt c) = Some t1 ->
  (t1 < commit_time ->
   In c (filter (before_first_commit commit_time) comments)) /\
  (commit_time < t1 ->
   ~ In c (filter (before_first_commit commit_time) comments)).
Proof.
  intros Hagree Hin Ht.
  assert (E : before_first_commit commit_time c = (t1 <? commit_time)).
  { unfold before_first_commit. rewrite (Hagree c Hin), Ht. reflexivity. }
  split; intros Hlt.
  - apply filter_In. split; [exact Hin|]. rewrite E. apply Z.ltb_lt. exact Hlt.
  - intros H. apply filter_In in H. destruct H as [_ H].
    rewrite E in H. apply Z.ltb_lt in H. lia.
Qed.

(** *** The loop over the resolved issues *)

(** Every lookup of an issue of the list returns [None]. *)
Definition all_lookups_none (issues : list Z) : Prop :=
  forall n w, In n issues -> snd (get_issue n w) = inr None.

Lemma issue_step_skipped pull n acc w :
  snd (get_issue n w) = inr None ->
  issue_step pull n acc w = (fst (get_issue n w), inr acc).
Proof.
  intros H. unfold issue_step, mbind.
  destruct (get_issue n w) as [w1 r]. simpl in H. subst r. reflexivity.
Qed.

Lemma issues_loop_skipped pull issues :
  all_lookups_none issues ->
  forall acc w, exists w', issues_loop pull issues acc w = (w', inr acc).
Proof.
  induction issues as [|n rest IH]; intros Hnone acc w.
  - exists w. reflexivity.
  - cbn [issues_loop]. unfold mbind.
    rewrite (issue_step_skipped pull n acc w (Hnone n w (or_introl eq_refl))).
    apply IH. intros m w' Hm. apply Hnone. right. exact Hm.
Qed.

Lemma issues_loop_app pull before after acc w :
  issues_loop pull (before ++ after)%list acc w =
    match issues_loop pull before acc w with
    | (w1, inl e) => (w1, inl e)
    | (w1, inr acc1) => issues_loop pull after acc1 w1
    end.
Proof.
  revert acc w. induction before as [|n rest IH]; intros acc w.
  - reflexivity.
  - cbn [List.app issues_loop]. unfold mbind.
    destruct (issue_step pull n acc w) as [w1 [e|acc1]]; [reflexivity|].
    apply IH.
Qed.

(** An iteration whose issue is found assigns [commit_urls] what its own
    call of [_extract_hints] returned, whatever it held before. *)
Lemma issue_step_processed pull n acc w w1 issue w2 hint all_hint urls :
  get_issue n w = (w1, inr (Some (Some issue))) ->
  _extract_hints pull (issue_number issue) w1 = (w2, inr (hint, all_hint, urls)) ->
  exists acc',
    issue_step pull n acc w = (w2, inr acc') /\
    acc_commit_urls acc' = Some urls.
Proof.
  intros Hi Hh. unfold issue_step, mbind. rewrite Hi, Hh.
  eexists. split; reflexivity.
Qed.

Lemma generic_path pull repo_name w :
  String.eqb repo_name "django" = false ->
  extract_problem_statement_and_hints pull repo_name w =
    match issues_loop pull (resolved_issues pull) initial_acc w with
    | (w1, inl e) => (w1, inl e)
    | (w1, inr acc) =>
      match acc_commit_urls acc with
      | Some commit_urls =>
        (w1, inr (Generic (acc_problem_text acc) (acc_hint_text acc)
                          (acc_all_hint_text acc) commit_urls))
      | None => (w1, inl (UnboundLocalError "commit_urls"))
      end
    end.
Proof.
  intros Hname. unfold extract_problem_statement_and_hints, mbind.
  rewrite Hname.
  destruct (issues_loop pull (resolved_issues pull) initial_acc w)
    as [w1 [e|acc]]; [reflexivity|].
  destruct (acc_commit_urls acc); reflexivity.
Qed.

(** C10, as amended: on a repository whose name is not [django], when the
    list of resolved issues is empty or every lookup of an issue returns
    [None], the function raises [UnboundLocalError] (a [NameError]) on
    [commit_urls]; and when issues are found, the [commit_urls] it returns is
    the list that [_extract_hints] computed for the last issue found. *)
Theorem commit_urls_unbound_or_last pull repo_name :
  String.eqb repo_name "django" = false ->
  (forall w,
     all_lookups_none (resolved_issues pull) ->
     snd (extract_problem_statement_and_hints pull repo_name w)
       = inl (UnboundLocalError "commit_urls")) /\
  (forall w before n after w1 acc1 w2 issue w3 hint all_hint urls,
     resolved_issues pull = (before ++ n :: after)%list ->
     issues_loop pull before initial_acc w = (w1, inr acc1) ->
     get_issue n w1 = (w2, inr (Some (Some issue))) ->
     _extract_hints pull (issue_number issue) w2
       = (w3, inr (hint, all_hint, urls)) ->
     all_lookups_none after ->
     exists w4 problem hints all_hints,
       extract_problem_statement_and_hints pull repo_name w
         = (w4, inr (Generic problem hints all_hints urls))).
Proof.
  intros Hname. split.
  - intros w Hnone. rewrite (generic_path pull repo_name w Hname).
    destruct (issues_loop_skipped pull _ Hnone initial_acc w) as [w' E].
    rewrite E. reflexivity.
  - intros w before n after w1 acc1 w2 issue w3 hint all_hint urls
      Hsplit Hbefore Hissue Hhints Hafter.
    rewrite (generic_path pull repo_name w Hname), Hsplit, issues_loop_app,
      Hbefore.
    cbn [issues_loop]. unfold mbind at 1.
    destruct (issue_step_processed pull n acc1 w1 w2 issue w3 hint all_hint urls
                Hissue Hhints) as (acc2 & Hstep & Hurls).
    rewrite Hstep.
    destruct (issues_loop_skipped pull after Hafter acc2 w3) as [w4 E].
    rewrite E, Hurls. do 4 eexists. reflexivity.
Qed.

End Assembler.

(** *** The assembler on a scripted service *)

(** The state of the scripted service counts the commit listings served: the
    [k]-th listing holds one commit, authored at midnight UTC on 2024-01-01,
    whose url ends in [k]. *)
Definition commits_of (k : nat) : list CommitNode :=
  [{| commit_author_date := "2024-01-01T00:00:00Z";
      commit_url := "https://github.com/o/r/commit/" ++ str_of_int (Z.of_nat k) |}].

Definition scripted_commits (pull_number : Z) : M nat (list CommitNode) :=
  fun w => (S w, inr (commits_of w)).

Definition scripted_comments (comments : list Comment) (issue_number : Z)
  : M nat (list Comment) :=
  fun w => (w, inr comments).

(** Issue 404 is not found; every other issue is. *)
Definition scripted_issue (n : Z) : M nat (option (option Issue)) :=
  fun w =>
    (w, inr (if n =? 404 then None
             else Some (Some {| issue_title := Some "Crash on start";
                                issue_body := None;
                                issue_number := n |}))).

Definition no_ticket (pull : Pull) (n : Z) (acc : string * list (string * Z))
  : M nat (string * list (string * Z)) :=
  fun w => (w, inl AttributeError).

Definition late_comment : Comment :=
  {| body := "Guarding the None case in load() fixes it";
     updatedAt := "2024-01-01T01:00:00Z" |}.

Definition early_comment : Comment :=
  {| body := "Happens on 3.11 only";
     updatedAt := "2023-12-31T22:00:00Z" |}.

Definition pull_12 (issues : list Z) : Pull :=
  {| number := 12; resolved_issues := issues;
     diff_url := "https://github.com/o/r/pull/12.diff" |}.

(** C6, at the failing input.  The first commit is authored at 00:00 UTC.
    [late_comment] is updated an hour after it; on a host eight hours ahead
    of UTC its body is in the hint text all the same.  [early_comment] is
    updated two hours before it; on a host five hours behind UTC its body is
    missing from the hint text.  On a host on UTC both are cut as the claim
    says. *)
Theorem hint_cutoff_follows_local_clock :
  (utc_timestamp (updatedAt late_comment) = Some 1704070800 /\
   utc_timestamp "2024-01-01T00:00:00Z" = Some 1704067200 /\
   _extract_hints nat utc_timestamp (local_mktime (8 * 3600)) scripted_commits
     (scripted_comments [late_comment]) (pull_12 [7]) 7 0%nat
   = (1%nat, inr (body late_comment, body late_comment, map commit_url (commits_of 0)))) /\
  (utc_timestamp (updatedAt early_comment) = Some 1704060000 /\
   _extract_hints nat utc_timestamp (local_mktime (-5 * 3600)) scripted_commits
     (scripted_comments [early_comment]) (pull_12 [7]) 7 0%nat
   = (1%nat, inr ("", body early_comment, map commit_url (commits_of 0)))) /\
  (_extract_hints nat utc_timestamp (local_mktime 0) scripted_commits
     (scripted_comments [late_comment]) (pull_12 [7]) 7 0%nat
   = (1%nat, inr ("", body late_comment, map commit_url (commits_of 0))) /\
   _extract_hints nat utc_timestamp (local_mktime 0) scripted_commits
     (scripted_comments [early_comment]) (pull_12 [7]) 7 0%nat
   = (1%nat, inr (body early_comment, body early_comment,
                  map commit_url (commits_of 0)))).
Proof. repeat split; vm_compute; reflexivity. Qed.

Definition app_hunk : PatchedFile :=
  {| path := "src/app.py"; text := "--- a/src/app.py" |}.

Definition test_hunk : PatchedFile :=
  {| path := "tests/test_app.py"; text := "--- a/tests/test_app.py" |}.

Definition scripted_diff (url : string) : M nat (option string) :=
  fun w => (w, inr (Some "diff --git")).

Definition scripted_patch_set (patch : string) : result (list PatchedFile) :=
  inr [app_hunk; test_hunk].

Lemma extract_patches_partition_witness :
  extract_patches nat scripted_diff scripted_patch_set (pull_12 []) 0%nat
  = (0%nat, inr (text app_hunk, text test_hunk)).
Proof.
  refine (proj2 (proj2 (extract_patches_partition nat scripted_diff
                          scripted_patch_set (pull_12 []) 0%nat 0%nat
                          "diff --git" [app_hunk; test_hunk] _ _))
            app_hunk test_hunk _ _ _); reflexivity.
Defined.

(** C10 fails as stated: on a repository named [django] an empty list of
    resolved issues gives the two values of the legacy path, and nothing is
    raised. *)
Lemma legacy_path_counterexample :
  resolved_issues (pull_12 []) = [] /\
  extract_problem_statement_and_hints nat utc_timestamp (local_mktime 0)
    scripted_commits (scripted_comments []) scripted_issue no_ticket
    (pull_12 []) "django" 0%nat
  = (0%nat, inr (Legacy "" [])).
Proof. split; reflexivity. Qed.

Lemma commit_urls_unbound_or_last_witness :
  snd (extract_problem_statement_and_hints nat utc_timestamp (local_mktime 0)
         scripted_commits (scripted_comments []) scripted_issue no_ticket
         (pull_12 [404; 404]) "flask" 0%nat)
  = inl (UnboundLocalError "commit_urls").
Proof.
  refine (proj1 (commit_urls_unbound_or_last nat utc_timestamp (local_mktime 0)
                   scripted_commits (scripted_comments []) scripted_issue
                   no_ticket (pull_12 [404; 404]) "flask" _) 0%nat _).
  - reflexivity.
  - intros n w [<- | [<- | []]]; reflexivity.
Defined.

(** Two issues found, one not: the urls returned are those of the second
    commit listing, the one served for the last issue found. *)
Example commit_urls_of_last_issue :
  extract_problem_statement_and_hints nat utc_timestamp (local_mktime 0)
    scripted_commits (scripted_comments []) scripted_issue no_ticket
    (pull_12 [1; 2; 404]) "flask" 0%nat
  = (2%nat, inr (Generic
       ("Crash on start" ++ newline ++ newline ++
        "Crash on start" ++ newline ++ newline)
       (newline ++ newline ++ newline ++ newline)
       (newline ++ newline ++ newline ++ newline)
       (map commit_url (commits_of 1)))).
Proof. vm_compute. reflexivity. Qed.

(** The paginator on two pages: the first holds two nodes and announces a
    next page, the second is empty and announces one too. *)
Definition page_of (nodes : list json) : Response :=
  {| status_code := 200;
     x_ratelimit_remaining := Some "4000";
     json_body := Some (JObj [("data", JObj [("comments", JObj
       [("pageInfo", JObj [("endCursor", JStr "Y3Vyc29y");
                           ("hasNextPage", JBool true)]);
        ("nodes", JArr nodes)])])]) |}.

Definition two_pages (i : nat) (cursor : json) : api_outcome :=
  match i with
  | O => ApiReturned (Some (page_of [JStr "first"; JStr "second"]))
  | _ => ApiReturned (Some (page_of []))
  end.

(** The same two pages when the second holds [null] for its nodes. *)
Definition null_page : Response :=
  {| status_code := 200;
     x_ratelimit_remaining := Some "4000";
     json_body := Some (JObj [("data", JObj [("comments", JObj
       [("pageInfo", JObj [("endCursor", JStr "Y3Vyc29y");
                           ("hasNextPage", JBool true)]);
        ("nodes", JNull)])])]) |}.

Definition then_null (i : nat) (cursor : json) : api_outcome :=
  match i with
  | O => ApiReturned (Some (page_of [JStr "first"; JStr "second"]))
  | _ => ApiReturned (Some null_page)
  end.

Lemma empty_page_ends_iteration_witness :
  get_all_loop decimal_int ["data"; "comments"] None false two_pages 7
  = ([JStr "first"; JStr "second"], Some Finished).
Proof.
  refine (eq_trans
            (proj1 (proj2 (proj2 (proj2 (proj2
               (empty_page_ends_iteration decimal_int
                  ["data"; "comments"] None false two_pages
                  1%nat (JArr []) _)))) 7%nat _)) _).
  - intros cursor. unfold empty_page.
    split; [do 3 eexists; repeat split; reflexivity | reflexivity].
  - lia.
  - reflexivity.
Defined.

(** With [quiet] off, the page whose nodes are [null] ends the generator
    with the [TypeError] of the closing log line; with [quiet] on it ends it
    normally.  Either way nothing of that page is yielded. *)
Example null_page_ends_iteration :
  get_all_loop decimal_int ["data"; "comments"] None false then_null 7
  = ([JStr "first"; JStr "second"], Some (GenRaised TypeError)) /\
  get_all_loop decimal_int ["data"; "comments"] None true then_null 7
  = ([JStr "first"; JStr "second"], Some Finished).
Proof. split; reflexivity. Qed.

End Utils.

(** ** The worklist of [bfs_star_range] as a whole *)

Module Worklist.

Import CrawlRepo.

(** [inner] denotes no star count that [outer] does not. *)
Definition within (outer inner : SearchRange) : Prop :=
  forall x, in_range inner x -> in_range outer x.

Definition disjoint (r1 r2 : SearchRange) : Prop :=
  forall x, ~ (in_range r1 x /\ in_range r2 x).

(** The ranges of a queue lie in the requested range and no two of them
    share a star count. *)
Definition queue_ok (requested : SearchRange) (q : list SearchRange) : Prop :=
  Forall (within requested) q /\ ForallOrdPairs disjoint q.

(** An upper bound of the iterations a bounded range can cost: one for the
    range itself and two for each further value it holds. *)
Definition weight (r : SearchRange) : nat :=
  match snd r with
  | Some hi => Z.to_nat (Z.max 1 (2 * (hi - fst r) + 1))
  | None => 0
  end.

Definition queue_weight (q : list SearchRange) : nat :=
  list_sum (map weight q).

Definition bounded (r : SearchRange) : Prop := snd r <> None.

Section Loop.

Variable World RepoRecord : Type.
Variable get_total_count : string -> World -> World * option Z.
Variable fetch_repos_in_range : string -> World -> World * option (list RepoRecord).
Variable language : option string.

(** The state [bfs_star_range] starts from. *)
Definition initial (stars_min stars_max : option Z) : bfs_state RepoRecord :=
  {| queue := [(match stars_min with Some m => m | None => 0 end, stars_max)];
     all_results := [] |}.

(** The state after [n] iterations of the loop, [None] when the loop has
    ended before. *)
Fixpoint bfs_after (n : nat) (w : World) (st : bfs_state RepoRecord)
  : option (World * bfs_state RepoRecord) :=
  match n with
  | O => Some (w, st)
  | S n' =>
    match bfs_iter get_total_count fetch_repos_in_range language w st with
    | None => None
    | Some (w', st') => bfs_after n' w' st'
    end
  end.

(** What an iteration can do to the queue: drop the popped range, put it
    back behind the rest, or put its two halves there. *)
Inductive queue_change (r : SearchRange) (rest : list SearchRange)
  : list SearchRange -> Prop :=
| Dropped : queue_change r rest rest
| Requeued : queue_change r rest (rest ++ [r])%list
| Split :
    fst r < split_mid r ->
    queue_change r rest
      (rest ++ [(fst r, Some (split_mid r)); (split_mid r + 1, snd r)])%list.

Lemma bfs_iter_cases w st r rest w' st' :
  queue st = r :: rest ->
  bfs_iter get_total_count fetch_repos_in_range language w st = Some (w', st') ->
  queue_change r rest (queue st') /\
  exists fetched, all_results st' = (all_results st ++ fetched)%list.
Proof.
  intros Hq. unfold bfs_iter. rewrite Hq. destruct r as [s_min s_max].
  destruct (get_total_count _ w) as [w1 [total_count|]].
  - destruct (total_count =? 0).
    + intros [= <- <-]. split; [constructor | exists []; symmetry; apply app_nil_r].
    + destruct (1000 <? total_count).
      * destruct s_max as [hi|].
        -- destruct ((s_min + hi) / 2 <=? s_min) eqn:E; intros [= <- <-];
             (split; [| exists []; symmetry; apply app_nil_r]).
           ++ constructor.
           ++ apply Z.leb_gt in E. apply (Split (s_min, Some hi) rest). exact E.
        -- destruct (s_min + 5000 <=? s_min) eqn:E; intros [= <- <-];
             (split; [| exists []; symmetry; apply app_nil_r]).
           ++ constructor.
           ++ apply Z.leb_gt in E. apply (Split (s_min, None) rest). exact E.
      * destruct (fetch_repos_in_range _ w1) as [w2 [repos|]]; intros [= <- <-].
        -- split; [constructor | exists repos; reflexivity].
        -- split; [constructor | exists []; symmetry; apply app_nil_r].
  - intros [= <- <-]. split; [constructor | exists []; symmetry; apply app_nil_r].
Qed.

(** *** The queue stays a family of disjoint parts of the request *)

Lemma pairs_app (R : SearchRange -> SearchRange -> Prop) l1 l2 :
  ForallOrdPairs R l1 -> ForallOrdPairs R l2 ->
  (forall a b, In a l1 -> In b l2 -> R a b) ->
  ForallOrdPairs R (l1 ++ l2).
Proof.
  induction l1 as [|a l1 IH]; intros H1 H2 H12; simpl; [exact H2|].
  inversion H1 as [|? ? Ha Hl1]; subst. constructor.
  - apply Forall_app. split; [exact Ha|].
    apply Forall_forall. intros b Hb. apply H12; [left; reflexivity | exact Hb].
  - apply IH; [exact Hl1 | exact H2 |].
    intros x y Hx Hy. apply H12; [right; exact Hx | exact Hy].
Qed.

Lemma halves_within r :
  fst r < split_mid r ->
  within r (fst r, Some (split_mid r)) /\ within r (split_mid r + 1, snd r).
Proof.
  intros H. destruct r as [s_min s_max]. simpl in *.
  split; intros x Hx; apply (split_covers s_min s_max x H); [left | right];
    exact Hx.
Qed.

Lemma queue_change_ok requested r rest q' :
  queue_ok requested (r :: rest) ->
  queue_change r rest q' ->
  queue_ok requested q'.
Proof.
  intros [Hin Hdis] Hch.
  inversion Hin as [|? ? Hr Hrest]; subst.
  inversion Hdis as [|? ? Hr_rest Hrest_dis]; subst.
  assert (Hsym : forall a, In a rest -> disjoint a r).
  { intros a Ha x [H1 H2]. rewrite Forall_forall in Hr_rest.
    exact (Hr_rest a Ha x (conj H2 H1)). }
  destruct Hch as [| |Hmid].
  - split; assumption.
  - split.
    + apply Forall_app. split; [exact Hrest|]. constructor; [exact Hr|constructor].
    + apply pairs_app; [exact Hrest_dis | constructor; constructor |].
      intros a b Ha [<- | []]. apply Hsym. exact Ha.
  - destruct (halves_within r Hmid) as [Hlow Hhigh]. split.
    + apply Forall_app. split; [exact Hrest|].
      constructor; [|constructor; [|constructor]];
        intros x Hx; apply Hr; [apply Hlow | apply Hhigh]; exact Hx.
    + apply pairs_app; [exact Hrest_dis | |].
      * constructor; [|constructor; constructor].
        constructor; [|constructor].
        intros x. destruct r as [s_min s_max]. apply split_disjoint.
      * intros a b Ha [<- | [<- | []]]; intros x [H1 H2];
          apply (Hsym a Ha x); (split; [exact H1|]);
          [apply Hlow | apply Hhigh]; exact H2.
Qed.

Lemma bfs_iter_queue_ok requested w st w' st' :
  queue_ok requested (queue st) ->
  bfs_iter get_total_count fetch_repos_in_range language w st = Some (w', st') ->
  queue_ok requested (queue st').
Proof.
  intros Hok Hit. destruct (queue st) as [|r rest] eqn:Hq.
  - unfold bfs_iter in Hit. rewrite Hq in Hit. discriminate.
  - destruct (bfs_iter_cases w st r rest w' st' Hq Hit) as [Hch _].
    exact (queue_change_ok requested r rest _ Hok Hch).
Qed.

(** X1.  After any number of iterations of [bfs_star_range], every range of the
    queue lies in the requested range and no two queued ranges share a star
    count: no repository can be fetched through two ranges queued at the
    same time, nor from outside the request. *)
Theorem queue_stays_disjoint n stars_min stars_max w w' st' :
  bfs_after n w (initial stars_min stars_max) = Some (w', st') ->
  queue_ok (match stars_min with Some m => m | None => 0 end, stars_max)
           (queue st').
Proof.
  set (requested := (match stars_min with Some m => m | None => 0 end, stars_max)).
  assert (H0 : queue_ok requested (queue (initial stars_min stars_max))).
  { split.
    - constructor; [intros x Hx; exact Hx | constructor].
    - constructor; constructor. }
  revert H0. generalize (initial stars_min stars_max) as st. revert w.
  induction n as [|n IH]; intros w st Hok Hrun; simpl in Hrun.
  - injection Hrun as <- <-. exact Hok.
  - destruct (bfs_iter get_total_count fetch_repos_in_range language w st)
      as [[w1 st1]|] eqn:Hit; [|discriminate].
    apply (IH w1 st1); [|exact Hrun].
    exact (bfs_iter_queue_ok requested w st w1 st1 Hok Hit).
Qed.

(** *** Termination *)

Lemma bfs_iter_cases_fetch w st r rest w' st' :
  queue st = r :: rest ->
  bfs_iter get_total_count fetch_repos_in_range language w st = Some (w', st') ->
  queue st' = rest \/
  (fst r < split_mid r /\
   queue st' =
     (rest ++ [(fst r, Some (split_mid r)); (split_mid r + 1, snd r)])%list) \/
  (exists q w1, snd (fetch_repos_in_range q w1) = None).
Proof.
  intros Hq. unfold bfs_iter. rewrite Hq. destruct r as [s_min s_max].
  destruct (get_total_count _ w) as [w1 [total_count|]].
  - destruct (total_count =? 0); [intros [= <- <-]; left; reflexivity|].
    destruct (1000 <? total_count).
    + destruct s_max as [hi|].
      * destruct ((s_min + hi) / 2 <=? s_min) eqn:E; intros [= <- <-].
        -- left. reflexivity.
        -- apply Z.leb_gt in E. right. left. split; [exact E | reflexivity].
      * destruct (s_min + 5000 <=? s_min) eqn:E; intros [= <- <-].
        -- left. reflexivity.
        -- apply Z.leb_gt in E. right. left. split; [exact E | reflexivity].
    + destruct (fetch_repos_in_range _ w1) as [w2 [repos|]] eqn:F;
        intros [= <- <-].
      * left. reflexivity.
      * right. right. eexists _, w1. rewrite F. reflexivity.
  - intros [= <- <-]. left. reflexivity.
Qed.

Lemma weight_positive r : bounded r -> (1 <= weight r)%nat.
Proof.
  unfold bounded, weight. destruct (snd r); [lia | contradiction].
Qed.

Lemma weight_split r :
  bounded r -> fst r < split_mid r ->
  (weight (fst r, Some (split_mid r)) + weight ((split_mid r + 1)%Z, snd r)
   < weight r)%nat.
Proof.
  destruct r as [s_min [hi|]]; unfold bounded; simpl; [|contradiction].
  intros _ H. pose proof (split_mid_bounds s_min hi H) as B.
  unfold weight, split_mid in *. cbn [fst snd] in *.
  remember ((s_min + hi) / 2) as mid. lia.
Qed.

Lemma queue_weight_app q1 q2 :
  queue_weight (q1 ++ q2) = (queue_weight q1 + queue_weight q2)%nat.
Proof. unfold queue_weight. rewrite map_app, list_sum_app. reflexivity. Qed.

Lemma bfs_iter_decreases w st w' st' :
  (forall q w1, snd (fetch_repos_in_range q w1) <> None) ->
  Forall bounded (queue st) ->
  bfs_iter get_total_count fetch_repos_in_range language w st = Some (w', st') ->
  Forall bounded (queue st') /\
  (queue_weight (queue st') < queue_weight (queue st))%nat.
Proof.
  intros Hfetch Hb Hit. destruct (queue st) as [|r rest] eqn:Hq.
  - unfold bfs_iter in Hit. rewrite Hq in Hit. discriminate.
  - inversion Hb as [|? ? Hr Hrest]; subst.
    pose proof (weight_positive r Hr) as Hpos.
    destruct (bfs_iter_cases_fetch w st r rest w' st' Hq Hit)
      as [-> | [[Hmid ->] | (q & w1 & F)]].
    + split; [exact Hrest|]. unfold queue_weight. simpl. lia.
    + split.
      * apply Forall_app. split; [exact Hrest|].
        constructor; [discriminate|]. constructor; [exact Hr | constructor].
      * pose proof (weight_split r Hr Hmid) as Hw.
        rewrite queue_weight_app. unfold queue_weight. simpl. lia.
    + elim (Hfetch q w1 F).
Qed.

Lemma bfs_loop_ends fuel :
  (forall q w1, snd (fetch_repos_in_range q w1) <> None) ->
  forall w st,
    Forall bounded (queue st) ->
    (queue_weight (queue st) <= fuel)%nat ->
    exists results,
      bfs_loop get_total_count fetch_repos_in_range fuel language w st
        = Some results.
Proof.
  intros Hfetch. induction fuel as [|fuel IH]; intros w st Hb Hw;
    cbn [bfs_loop];
    destruct (bfs_iter get_total_count fetch_repos_in_range language w st)
      as [[w' st']|] eqn:Hit;
    try (eexists; reflexivity);
    destruct (bfs_iter_decreases w st w' st' Hfetch Hb Hit) as [Hb' Hlt].
  - lia.
  - apply IH; [exact Hb' | lia].
Qed.

(** X2.  On a bounded request [low, high], when no pagination of a range fails,
    [bfs_star_range] ends and returns within [max 1 (2 (high - low) + 1)]
    iterations, whatever the counts are. *)
Theorem bounded_request_terminates (fuel : nat) (stars_min : option Z)
  (high : Z) (w : World) :
  (forall q w1, snd (fetch_repos_in_range q w1) <> None) ->
  (weight (match stars_min with Some m => m | None => 0%Z end, Some high)
   <= fuel)%nat ->
  exists results,
    bfs_star_range get_total_count fetch_repos_in_range fuel language
      stars_min (Some high) w = Some results.
Proof.
  intros Hfetch Hfuel. unfold bfs_star_range.
  apply (bfs_loop_ends fuel Hfetch).
  - constructor; [discriminate | constructor].
  - unfold queue_weight. simpl. lia.
Qed.

(** *** A pagination that always fails *)

Lemma requeue_iter w r results :
  (forall q w1, exists c, snd (get_total_count q w1) = Some c /\ 0 < c <= 1000) ->
  (forall q w1, snd (fetch_repos_in_range q w1) = None) ->
  exists w',
    bfs_iter get_total_count fetch_repos_in_range language w
      {| queue := [r]; all_results := results |}
    = Some (w', {| queue := [r]; all_results := results |}).
Proof.
  intros Hcount Hfetch. unfold bfs_iter. cbn [queue all_results].
  destruct r as [s_min s_max].
  destruct (Hcount (make_query language (Some s_min) s_max) w) as (c & Hc & Hr).
  destruct (get_total_count _ w) as [w1 o]. simpl in Hc. subst o.
  assert (E0 : (c =? 0) = false) by (apply Z.eqb_neq; lia).
  assert (E1 : (1000 <? c) = false) by (apply Z.ltb_ge; lia).
  rewrite E0, E1.
  specialize (Hfetch (make_query language (Some s_min) s_max) w1).
  destruct (fetch_repos_in_range _ w1) as [w2 o]. simpl in Hfetch. subst o.
  exists w2. reflexivity.
Qed.

Lemma requeue_loop fuel (r : SearchRange) :
  (forall q w1, exists c, snd (get_total_count q w1) = Some c /\ 0 < c <= 1000) ->
  (forall q w1, snd (fetch_repos_in_range q w1) = None) ->
  forall w,
    bfs_loop get_total_count fetch_repos_in_range fuel language w
      {| queue := [r]; all_results := [] |} = None.
Proof.
  intros Hcount Hfetch.
  induction fuel as [|fuel IH]; intros w; cbn [bfs_loop];
    destruct (requeue_iter w r [] Hcount Hfetch) as [w' E]; rewrite E.
  - reflexivity.
  - apply IH.
Qed.

(** X3.  When every count lies between 1 and 1000 and every pagination fails, the
    requested range is put back on the queue at each iteration: the loop of
    [bfs_star_range] has not ended after any number of iterations. *)
Theorem failing_pagination_never_ends fuel stars_min stars_max w :
  (forall q w1, exists c, snd (get_total_count q w1) = Some c /\ 0 < c <= 1000) ->
  (forall q w1, snd (fetch_repos_in_range q w1) = None) ->
  bfs_star_range get_total_count fetch_repos_in_range fuel language
    stars_min stars_max w = None.
Proof.
  intros Hcount Hfetch. unfold bfs_star_range.
  apply requeue_loop; assumption.
Qed.

End Loop.

(** *** The loop on three scripted services *)

(** Every count overflows and every pagination succeeds with no record. *)
Definition always_overflowing (q : string) (w : unit) : unit * option Z :=
  (w, Some 1001).

Definition empty_fetch (q : string) (w : unit) : unit * option (list unit) :=
  (w, Some []).

(** Every count is 500 and every pagination fails. *)
Definition five_hundred (q : string) (w : unit) : unit * option Z :=
  (w, Some 500).

Definition failing_fetch (q : string) (w : unit) : unit * option (list unit) :=
  (w, None).

Lemma queue_stays_disjoint_witness :
  queue_ok (0, Some 20)
    [(0, Some 5); (6, Some 10); (11, Some 15); (16, Some 20)].
Proof.
  exact (queue_stays_disjoint unit unit always_overflowing empty_fetch None
           3 (Some 0) (Some 20) tt tt
           {| queue := [(0, Some 5); (6, Some 10); (11, Some 15); (16, Some 20)];
              all_results := [] |}
           eq_refl).
Defined.

Lemma bounded_request_terminates_witness :
  exists results,
    bfs_star_range always_overflowing empty_fetch 41 None (Some 0) (Some 20) tt
      = Some results.
Proof.
  apply (bounded_request_terminates unit unit always_overflowing empty_fetch
           None 41 (Some 0) 20 tt).
  - intros q w1. discriminate.
  - vm_compute. lia.
Defined.

Lemma failing_pagination_never_ends_witness :
  bfs_star_range five_hundred failing_fetch 50 None (Some 0) (Some 20) tt = None.
Proof.
  apply (failing_pagination_never_ends unit unit five_hundred failing_fetch
           None 50 (Some 0) (Some 20) tt).
  - intros q w1. exists 500. split; [reflexivity | lia].
  - intros q w1. reflexivity.
Defined.

End Worklist.

(** ** The search client of [crawl_repo.py] *)

Module SearchApi.

(** White space as [str.strip] reads it, on the code points below 256. *)
Definition is_space (c : ascii) : bool :=
  let n := nat_of_ascii c in
  ((9 <=? n) && (n <=? 13) || (28 <=? n) && (n <=? 32)
   || (n =? 133) || (n =? 160))%nat.

Fixpoint lstrip (s : string) : string :=
  match s with
  | EmptyString => ""
  | String c s' => if is_space c then lstrip s' else s
  end.

Fixpoint rstrip (s : string) : string :=
  match s with
  | EmptyString => ""
  | String c s' =>
    match rstrip s' with
    | EmptyString => if is_space c then "" else String c ""
    | r => String c r
    end
  end.

(** [s.strip()]. *)
Definition strip (s : string) : string := rstrip (lstrip s).

(** [itertools.cycle(tokens)]: the saved items and how many were served. *)
Record cycle : Type := {
  saved : list string;
  served : nat
}.

(** [next(token_cycle)]; [None] is the [StopIteration] of an empty cycle. *)
Definition next (c : cycle) : option (string * cycle) :=
  match saved c with
  | [] => None
  | _ :: _ =>
    Some (nth (served c mod List.length (saved c)) (saved c) "",
          {| saved := saved c; served := S (served c) |})
  end.

(** The token the [k]-th later call of [next] serves. *)
Fixpoint serve (k : nat) (c : cycle) : option string :=
  match next c with
  | None => None
  | Some (token, c') =>
    match k with
    | O => Some token
    | S k' => serve k' c'
    end
  end.

Definition non_blank (line : string) : bool :=
  negb (String.eqb (strip line) "").

(** [load_tokens], on the lines of the token file. *)
Definition load_tokens (lines : list string) : result cycle :=
  let tokens := map strip (filter non_blank lines) in
  match tokens with
  | [] => raise ValueError
  | _ :: _ => ret {| saved := tokens; served := 0 |}
  end.

(** What one [session.get] does: it answers, or it raises. *)
Inductive get_outcome : Type :=
| Answered (resp : Utils.Response)
| Failed (e : exn).

(** The client as the requests see it: the token cycle, the number of
    requests sent and the seconds slept. *)
Record client : Type := {
  token_cycle : cycle;
  sent : nat;
  slept : Z
}.

(** [data.get(key, default)]: a method of [dict] only. *)
Definition dict_get (data : Utils.json) (key : string) (default : Utils.json)
  : result Utils.json :=
  match data with
  | Utils.JObj fields =>
    ret (match Utils.assoc key fields with Some v => v | None => default end)
  | _ => raise AttributeError
  end.

Definition per_page : nat := 100.
Definition max_pages : nat := 10.

(** The [params] of the count query and of the query of a page. *)
Definition count_params (query : string) : list (string * Utils.json) :=
  [("q", Utils.JStr query); ("per_page", Utils.JNum 1)].

Definition page_params (query : string) (page : nat)
  : list (string * Utils.json) :=
  [("q", Utils.JStr query); ("sort", Utils.JStr "stars");
   ("order", Utils.JStr "desc"); ("per_page", Utils.JNum (Z.of_nat per_page));
   ("page", Utils.JNum (Z.of_nat page))].

Section Client.

(** The [n]-th request of the session, sent with a token and [params]. *)
Variable session_get :
  nat -> string -> list (string * Utils.json) -> get_outcome.

(** [github_api_request]; [fuel] bounds the iterations of [while True], and
    the result is [None] when it runs out. *)
Fixpoint github_api_request (fuel : nat) (params : list (string * Utils.json))
  (s : client) : client * option (result Utils.json) :=
  match fuel with
  | O => (s, None)
  | S fuel' =>
    match next (token_cycle s) with
    | None => (s, Some (raise (GenericException "StopIteration")))
    | Some (token, cyc) =>
      let s1 := {| token_cycle := cyc; sent := S (sent s); slept := slept s |} in
      match session_get (sent s) token params with
      | Failed e => (s1, Some (raise e))
      | Answered resp =>
        if Utils.status_code resp =? 403 then
          github_api_request fuel' params
            {| token_cycle := cyc; sent := S (sent s); slept := slept s + 1 |}
        else if (400 <=? Utils.status_code resp)
                && (Utils.status_code resp <? 600) then
          (s1, Some (raise (GenericException "HTTPError")))
        else
          match Utils.json_body resp with
          | None => (s1, Some (raise ValueError))
          | Some data => (s1, Some (ret data))
          end
      end
    end
  end.

Definition get_total_count (fuel : nat) (query : string) (s : client)
  : client * option (result Utils.json) :=
  match github_api_request fuel (count_params query) s with
  | (s1, Some (inr data)) =>
    (s1, Some (dict_get data "total_count" (Utils.JNum 0)))
  | other => other
  end.

(** The loop of [fetch_repos_in_range] over the pages still to ask for. *)
Fixpoint fetch_pages (fuel : nat) (query : string) (pages : list nat)
  (s : client) (all_items : list Utils.json)
  : client * option (result (list Utils.json)) :=
  match pages with
  | [] => (s, Some (ret all_items))
  | page :: rest =>
    match github_api_request fuel (page_params query page) s with
    | (s1, None) => (s1, None)
    | (s1, Some (inl e)) => (s1, Some (inl e))
    | (s1, Some (inr data)) =>
      match dict_get data "items" (Utils.JArr []) with
      | inl e => (s1, Some (inl e))
      | inr items =>
        if negb (Utils.json_truthy items) then (s1, Some (ret all_items))
        else
          match Utils.iterate items with
          | inl e => (s1, Some (inl e))
          | inr new_items =>
            if (List.length new_items <? per_page)%nat
            then (s1, Some (ret (all_items ++ new_items)%list))
            else fetch_pages fuel query rest s1 (all_items ++ new_items)%list
          end
      end
    end
  end.

Definition fetch_repos_in_range (fuel : nat) (query : string) (s : client)
  : client * option (result (list Utils.json)) :=
  fetch_pages fuel query (seq 1 max_pages) s [].

(** *** Rotation of the credentials under 403 answers *)

(** The token the [i]-th later call of [next] serves from a cycle. *)
Definition token_at (c : cycle) (i : nat) : string :=
  nth ((served c + i) mod List.length (saved c)) (saved c) "".

Definition advance (s : client) (requests : nat) (seconds : Z) : client :=
  {| token_cycle := {| saved := saved (token_cycle s);
                       served := served (token_cycle s) + requests |};
     sent := sent s + requests;
     slept := slept s + seconds |}.

Lemma next_some c :
  saved c <> [] ->
  next c = Some (token_at c 0, {| saved := saved c; served := S (served c) |}).
Proof.
  intros H. unfold next, token_at. rewrite Nat.add_0_r.
  destruct (saved c); [contradiction | reflexivity].
Qed.

Lemma passes_status st :
  st < 400 \/ 600 <= st ->
  (st =? 403) = false /\ ((400 <=? st) && (st <? 600)) = false.
Proof.
  intros H. split.
  - apply Z.eqb_neq. lia.
  - destruct (400 <=? st) eqn:E1; [|reflexivity].
    apply Z.leb_le in E1. apply Z.ltb_ge. lia.
Qed.

Lemma client_eq c1 c2 n1 n2 z1 z2 :
  c1 = c2 -> n1 = n2 -> z1 = z2 ->
  {| token_cycle := c1; sent := n1; slept := z1 |} =
  {| token_cycle := c2; sent := n2; slept := z2 |}.
Proof. intros -> -> ->. reflexivity. Qed.

Lemma request_after_refusals k :
  forall fuel params s resp data,
    saved (token_cycle s) <> [] ->
    (forall i, (i < k)%nat ->
       exists r,
         session_get (sent s + i) (token_at (token_cycle s) i) params
           = Answered r /\
         Utils.status_code r = 403) ->
    session_get (sent s + k) (token_at (token_cycle s) k) params
      = Answered resp ->
    Utils.status_code resp < 400 \/ 600 <= Utils.status_code resp ->
    Utils.json_body resp = Some data ->
    (k < fuel)%nat ->
    github_api_request fuel params s
      = (advance s (S k) (Z.of_nat k), Some (inr data)).
Proof.
  induction k as [|k IH]; intros fuel params s resp data Hne Hrefused Hlast
    Hstatus Hbody Hfuel; (destruct fuel as [|fuel]; [lia|]);
    cbn [github_api_request]; rewrite (next_some _ Hne).
  - rewrite Nat.add_0_r in Hlast. rewrite Hlast.
    destruct (passes_status _ Hstatus) as [E1 E2]. rewrite E1, E2, Hbody.
    f_equal. unfold advance. apply client_eq.
    + f_equal. lia.
    + lia.
    + cbn. lia.
  - destruct (Hrefused 0%nat ltac:(lia)) as (r & Hr & Hs).
    rewrite Nat.add_0_r in Hr. rewrite Hr, Hs. cbn [Z.eqb Pos.eqb].
    set (s1 := {| token_cycle := {| saved := saved (token_cycle s);
                                    served := S (served (token_cycle s)) |};
                  sent := S (sent s); slept := slept s + 1 |}).
    assert (Hshift : forall i,
              session_get (sent s1 + i) (token_at (token_cycle s1) i) params =
              session_get (sent s + S i) (token_at (token_cycle s) (S i)) params).
    { intros i. unfold s1, token_at. cbn [sent token_cycle saved served].
      replace (S (sent s) + i)%nat with (sent s + S i)%nat by lia.
      replace (S (served (token_cycle s)) + i)%nat
        with (served (token_cycle s) + S i)%nat by lia.
      reflexivity. }
    rewrite (IH fuel params s1 resp data).
    + f_equal. unfold advance, s1. cbn [sent token_cycle saved served slept].
      apply client_eq; [f_equal|..]; lia.
    + exact Hne.
    + intros i Hi. rewrite Hshift. apply Hrefused. lia.
    + rewrite Hshift. exact Hlast.
    + exact Hstatus.
    + exact Hbody.
    + lia.
Qed.

(** X4.  When the next [k] requests are answered 403 and the one after them is
    answered with a status that passes [raise_for_status] and a JSON body,
    [github_api_request] returns that body: it has sent [k + 1] requests,
    each with the next token of the rotation, and slept [k] seconds. *)
Theorem refused_requests_rotate k fuel params s resp data :
  saved (token_cycle s) <> [] ->
  (forall i, (i < k)%nat ->
     exists r,
       session_get (sent s + i) (token_at (token_cycle s) i) params
         = Answered r /\
       Utils.status_code r = 403) ->
  session_get (sent s + k) (token_at (token_cycle s) k) params
    = Answered resp ->
  Utils.status_code resp < 400 \/ 600 <= Utils.status_code resp ->
  Utils.json_body resp = Some data ->
  (k < fuel)%nat ->
  github_api_request fuel params s
    = (advance s (S k) (Z.of_nat k), Some (inr data)).
Proof. apply request_after_refusals. Qed.

(** *** A range of at most 1000 repositories is fetched whole *)

(** The items of a page of a result list. *)
Definition page_slice (repos : list Utils.json) (page : nat) : list Utils.json :=
  firstn per_page (skipn (per_page * (page - 1)) repos).

(** The service answers every query of a page of [query] with status 200
    and the items of that page of [repos]. *)
Definition paginates (query : string) (repos : list Utils.json) : Prop :=
  forall n token page,
    exists resp data,
      session_get n token (page_params query page) = Answered resp /\
      Utils.status_code resp = 200 /\
      Utils.json_body resp = Some data /\
      dict_get data "items" (Utils.JArr []) = inr (Utils.JArr (page_slice repos page)).

Lemma firstn_plus {A} (a b : nat) (l : list A) :
  firstn (a + b) l = (firstn a l ++ firstn b (skipn a l))%list.
Proof.
  revert l. induction a as [|a IH]; intros l; [reflexivity|].
  destruct l as [|x l]; simpl.
  - destruct b; reflexivity.
  - rewrite IH. reflexivity.
Qed.

Lemma firstn_whole {A} (n : nat) (l : list A) :
  (List.length l <= n)%nat -> firstn n l = l.
Proof.
  revert l. induction n as [|n IH]; intros [|x l] H; simpl in *;
    try reflexivity; try lia.
  rewrite IH by lia. reflexivity.
Qed.

Lemma page_request fuel query repos page s :
  paginates query repos ->
  saved (token_cycle s) <> [] ->
  exists data,
    github_api_request (S fuel) (page_params query page) s
      = (advance s 1 0, Some (inr data)) /\
    dict_get data "items" (Utils.JArr [])
      = inr (Utils.JArr (page_slice repos page)).
Proof.
  intros Hserv Hne.
  destruct (Hserv (sent s) (token_at (token_cycle s) 0) page)
    as (resp & data & Hget & Hst & Hbody & Hitems).
  exists data. split; [|exact Hitems].
  apply (request_after_refusals 0 (S fuel) _ s resp data Hne).
  - intros i Hi. lia.
  - rewrite Nat.add_0_r. exact Hget.
  - left. rewrite Hst. lia.
  - exact Hbody.
  - lia.
Qed.

Lemma fetch_pages_whole fuel query repos :
  paginates query repos ->
  forall m p s,
    saved (token_cycle s) <> [] ->
    (1 <= p)%nat ->
    (p - 1 + m = max_pages)%nat ->
    exists requests,
      (requests <= m)%nat /\
      fetch_pages (S fuel) query (seq p m) s (firstn (per_page * (p - 1)) repos)
        = (advance s requests 0,
           Some (inr (firstn (per_page * max_pages) repos))).
Proof.
  intros Hserv. induction m as [|m IH]; intros p s Hne Hp Hm.
  - exists 0%nat. split; [lia|]. cbn [seq fetch_pages].
    replace (p - 1)%nat with max_pages by lia.
    f_equal. unfold advance. destruct s as [[sv n] k z]. cbn.
    apply client_eq; [f_equal|..]; lia.
  - cbn [seq fetch_pages].
    destruct (page_request fuel query repos p s Hserv Hne) as (data & Hreq & Hitems).
    rewrite Hreq, Hitems. cbn [Utils.json_truthy Utils.iterate ret].
    unfold page_slice.
    set (a := (per_page * (p - 1))%nat).
    pose proof (length_firstn per_page (skipn a repos)) as Hlen.
    pose proof (length_skipn a repos) as Hskip.
    assert (Ha : (a + per_page <= per_page * max_pages)%nat)
      by (unfold a, per_page, max_pages in *; lia).
    destruct (firstn per_page (skipn a repos)) as [|x slice] eqn:Hslice.
    + exists 1%nat. split; [lia|]. cbn [negb].
      assert (Hshort : (List.length repos <= a)%nat)
        by (cbn [List.length] in Hlen; unfold per_page in *; lia).
      rewrite (firstn_whole a repos Hshort).
      rewrite (firstn_whole _ repos) by lia. reflexivity.
    + cbn [negb]. rewrite <- Hslice. clear Hlen.
      pose proof (length_firstn per_page (skipn a repos)) as Hlen.
      destruct (List.length (firstn per_page (skipn a repos)) <? per_page)%nat
        eqn:E.
      * exists 1%nat. split; [lia|]. apply Nat.ltb_lt in E.
        rewrite <- firstn_plus.
        assert (Hshort : (List.length repos <= a + per_page)%nat) by lia.
        rewrite (firstn_whole (a + per_page) repos Hshort).
        rewrite (firstn_whole _ repos) by lia. reflexivity.
      * apply Nat.ltb_ge in E. rewrite <- firstn_plus.
        replace (a + per_page)%nat with (per_page * (S p - 1))%nat
          by (unfold a, per_page; lia).
        destruct (IH (S p) (advance s 1 0)) as (requests & Hle & Hrun).
        -- exact Hne.
        -- lia.
        -- lia.
        -- exists (S requests). split; [lia|]. rewrite Hrun.
           f_equal. unfold advance. cbn [token_cycle saved served sent slept].
           apply client_eq; [f_equal|..]; lia.
Qed.

(** X5.  On a service that paginates the result list of a query by 100,
    [fetch_repos_in_range] returns the first 1000 repositories of the list,
    hence all of them when the count is at most 1000, and sends at most 10
    requests. *)
Theorem fetch_returns_first_thousand fuel query repos s :
  paginates query repos ->
  saved (token_cycle s) <> [] ->
  exists requests,
    (requests <= 10)%nat /\
    fetch_repos_in_range (S fuel) query s
      = (advance s requests 0, Some (inr (firstn 1000 repos))) /\
    ((List.length repos <= 1000)%nat -> firstn 1000 repos = repos).
Proof.
  intros Hserv Hne.
  destruct (fetch_pages_whole fuel query repos Hserv max_pages 1 s Hne)
    as (requests & Hle & Hrun); [lia | reflexivity |].
  exists requests. split; [exact Hle|]. split.
  - exact Hrun.
  - apply firstn_whole.
Qed.

End Client.

(** *** The tokens of [load_tokens] *)

Lemma rstrip_idempotent s : rstrip (rstrip s) = rstrip s.
Proof.
  induction s as [|c s IH]; [reflexivity|].
  cbn [rstrip]. destruct (rstrip s) as [|d r] eqn:E.
  - destruct (is_space c) eqn:Ec; [reflexivity|].
    cbn [rstrip]. rewrite Ec. reflexivity.
  - change (rstrip (String c (String d r)))
      with (match rstrip (String d r) with
            | EmptyString => if is_space c then "" else String c ""
            | String _ _ as r0 => String c r0
            end).
    rewrite IH. reflexivity.
Qed.

Lemma lstrip_head s :
  lstrip s = "" \/
  exists c t, lstrip s = String c t /\ is_space c = false.
Proof.
  induction s as [|c s IH]; [left; reflexivity|].
  cbn [lstrip]. destruct (is_space c) eqn:Ec; [exact IH|].
  right. exists c, s. split; [reflexivity | exact Ec].
Qed.

Lemma strip_idempotent s : strip (strip s) = strip s.
Proof.
  unfold strip. destruct (lstrip_head s) as [-> | (c & t & -> & Ec)].
  - reflexivity.
  - assert (H : lstrip (rstrip (String c t)) = rstrip (String c t)).
    { cbn [rstrip]. destruct (rstrip t); [rewrite Ec|];
        cbn [lstrip]; rewrite Ec; reflexivity. }
    rewrite H. apply rstrip_idempotent.
Qed.

Lemma serve_token_at k :
  forall c, saved c <> [] -> serve k c = Some (token_at c k).
Proof.
  induction k as [|k IH]; intros c Hne; cbn [serve]; rewrite (next_some c Hne).
  - reflexivity.
  - rewrite IH by exact Hne. unfold token_at. cbn [saved served].
    replace (S (served c) + k)%nat with (served c + S k)%nat by lia.
    reflexivity.
Qed.

(** X6.  [load_tokens] raises [ValueError] exactly when every line is blank.
    Otherwise the cycle it returns holds the non-blank lines stripped, in
    file order, and the [k]-th call of [next] serves the token of index
    [k mod n]: a token that is not empty and has no white space around it. *)
Theorem load_tokens_round_robin lines :
  match load_tokens lines with
  | inl e =>
    e = ValueError /\ forall line, In line lines -> strip line = ""
  | inr c =>
    saved c = map strip (filter non_blank lines) /\
    (exists line, In line lines /\ strip line <> "") /\
    forall k,
      exists token,
        serve k c = Some token /\
        token = nth (k mod List.length (saved c)) (saved c) "" /\
        In token (saved c) /\ token <> "" /\ strip token = token
  end.
Proof.
  unfold load_tokens.
  destruct (map strip (filter non_blank lines)) as [|t ts] eqn:E.
  - split; [reflexivity|]. intros line Hin.
    destruct (String.eqb (strip line) "") eqn:Eb; [apply String.eqb_eq; exact Eb|].
    assert (Hf : In line (filter non_blank lines)).
    { apply filter_In. split; [exact Hin|]. unfold non_blank. rewrite Eb. reflexivity. }
    apply (in_map strip) in Hf. rewrite E in Hf. destruct Hf.
  - assert (Htok : forall token, In token (t :: ts) ->
                     token <> "" /\ strip token = token /\
                     exists line, In line lines /\ strip line <> "").
    { intros token Hin. rewrite <- E in Hin. apply in_map_iff in Hin.
      destruct Hin as (line & <- & Hl). apply filter_In in Hl.
      destruct Hl as [Hl Hnb]. unfold non_blank in Hnb.
      apply negb_true_iff, String.eqb_neq in Hnb.
      split; [exact Hnb|]. split; [apply strip_idempotent|].
      exists line. split; assumption. }
    cbn [ret saved]. split; [reflexivity|]. split.
    + destruct (Htok t (or_introl eq_refl)) as (_ & _ & H). exact H.
    + intros k.
      set (c := {| saved := t :: ts; served := 0 |}).
      exists (token_at c k).
      assert (Hin : In (token_at c k) (t :: ts)).
      { unfold token_at, c. cbn [saved served]. apply nth_In.
        apply Nat.mod_upper_bound. discriminate. }
      split; [apply serve_token_at; discriminate|].
      split; [reflexivity|]. split; [exact Hin|].
      destruct (Htok _ Hin) as (H1 & H2 & _). split; assumption.
Qed.

(** *** The client on scripted services *)

Definition ok_response (data : Utils.json) : Utils.Response :=
  {| Utils.status_code := 200;
     Utils.x_ratelimit_remaining := None;
     Utils.json_body := Some data |}.

Definition refusal : Utils.Response :=
  {| Utils.status_code := 403;
     Utils.x_ratelimit_remaining := None;
     Utils.json_body := None |}.

(** The first two requests are refused, the third is answered. *)
Definition refuses_twice (n : nat) (token : string)
  (params : list (string * Utils.json)) : get_outcome :=
  if (n <? 2)%nat then Answered refusal
  else Answered (ok_response (Utils.JObj [("total_count", Utils.JNum 42)])).

Definition two_tokens : client :=
  {| token_cycle := {| saved := ["ghp_a"; "ghp_b"]; served := 0 |};
     sent := 0; slept := 0 |}.

Lemma refused_requests_rotate_witness :
  github_api_request refuses_twice 5 (count_params "language:Python") two_tokens
  = ({| token_cycle := {| saved := ["ghp_a"; "ghp_b"]; served := 3 |};
        sent := 3; slept := 2 |},
     Some (inr (Utils.JObj [("total_count", Utils.JNum 42)]))).
Proof.
  refine (refused_requests_rotate refuses_twice 2 5
            (count_params "language:Python") two_tokens
            (ok_response (Utils.JObj [("total_count", Utils.JNum 42)]))
            (Utils.JObj [("total_count", Utils.JNum 42)]) _ _ _ _ _ _).
  - discriminate.
  - intros i Hi. exists refusal. split; [|reflexivity].
    destruct i as [|[|i]]; [reflexivity | reflexivity | lia].
  - reflexivity.
  - left. vm_compute. reflexivity.
  - reflexivity.
  - lia.
Defined.

(** A result list of 250 repositories, served by pages of 100. *)
Definition repos_250 : list Utils.json :=
  map (fun i => Utils.JNum (Z.of_nat i)) (seq 0 250).

Definition paginated (n : nat) (token : string)
  (params : list (string * Utils.json)) : get_outcome :=
  match Utils.assoc "page" params with
  | Some (Utils.JNum page) =>
    Answered (ok_response
      (Utils.JObj [("items", Utils.JArr (page_slice repos_250 (Z.to_nat page)))]))
  | _ => Answered (ok_response (Utils.JObj []))
  end.

Lemma fetch_returns_first_thousand_witness :
  exists requests,
    (requests <= 10)%nat /\
    fetch_repos_in_range paginated 1 "language:Python" two_tokens
      = (advance two_tokens requests 0, Some (inr (firstn 1000 repos_250))) /\
    ((List.length repos_250 <= 1000)%nat -> firstn 1000 repos_250 = repos_250).
Proof.
  apply (fetch_returns_first_thousand paginated 0 "language:Python" repos_250
           two_tokens).
  - intros n token page. do 2 eexists.
    unfold paginated, page_params. cbn [Utils.assoc String.eqb Ascii.eqb Bool.eqb].
    rewrite Nat2Z.id.
    split; [reflexivity|]. split; [reflexivity|]. split; reflexivity.
  - discriminate.
Defined.

End SearchApi.

(** ** Retries of the two HTTP wrappers of [utils.py] *)

Module Transport.

Import Utils.

(** What a call observes when [k] attempts fail and are retried, then one
    more request is sent. *)
Definition retried (k : nat) : list event :=
  (List.concat (repeat [Post; Sleep 20] k) ++ [Post])%list.

(** What one [requests.get] of [wrapped_requests_get] does: it returns a
    response, whose [text] is kept here, or it raises. *)
Inductive fetch_outcome : Type :=
| Fetched (text : string)
| HttpError
| ConnectionFailure.

(** [wrapped_requests_get]: the [n]-th request is answered by [get n]; the
    result is [None] for the [None] of the source, and the outer [None] when
    the fuel runs out. *)
Fixpoint wrapped_requests_get (fuel : nat) (get : nat -> fetch_outcome)
  (max_retries : Z) (n : nat) (attempt : Z)
  : list event * option (option string) :=
  if attempt <? max_retries then
    match get n with
    | Fetched text => ([Post], Some (Some text))
    | HttpError => ([Post], Some None)
    | ConnectionFailure =>
      if attempt <? max_retries - 1 then
        match fuel with
        | O => ([Post; Sleep 20], None)
        | S fuel' =>
          let (evs, r) :=
            wrapped_requests_get fuel' get max_retries (S n) (attempt + 1) in
          (Post :: Sleep 20 :: evs, r)
        end
      else ([Post], Some None)
    end
  else ([], Some None).

Section CallApi.

Variable py_int : string -> option Z.

(** *** What [call_api] returns *)

(** What [call_api] requires of a body before it returns the response: the
    test ["data" in response_json] on what [json()] gave.  On an object it
    is the presence of the key, which [json()["data"]] then reads; on a list
    it is an item ["data"], on a string the substring. *)
Definition passes_data_test (response_json : json) : Prop :=
  match response_json with
  | JObj _ => exists data, subscript response_json "data" = inr data
  | JArr items => In (JStr "data") items
  | JStr s => contains "data" s = true
  | _ => False
  end.

Lemma contains_data_passes response_json :
  contains_data response_json = inr true -> passes_data_test response_json.
Proof.
  destruct response_json as [|b|n|s|items|fields];
    cbn [contains_data passes_data_test subscript ret raise];
    try discriminate.
  - intros [= H]. exact H.
  - intros [= H]. apply existsb_exists in H. destruct H as (x & Hin & Hx).
    destruct x; cbn [is_data] in Hx; try discriminate.
    apply String.eqb_eq in Hx. subst. exact Hin.
  - destruct (assoc "data" fields) as [data|]; [|discriminate].
    intros _. exists data. reflexivity.
Qed.

Lemma call_api_returned fuel :
  forall post max_retries n attempt evs r,
    call_api py_int fuel post max_retries n attempt = (evs, Returned (Some r)) ->
    status_code r = 200 /\
    (exists rl, int_of_header py_int (x_ratelimit_remaining r) = inr rl) /\
    exists response_json,
      json_body r = Some response_json /\
      contains_data response_json = inr true /\
      passes_data_test response_json.
Proof.
  induction fuel as [|fuel IH]; intros post max_retries n attempt evs r;
    cbn [call_api]; cbv zeta;
    destruct (post n) as [response|];
    repeat match goal with
    | |- context [if ?b then _ else _] => destruct b eqn:?
    | |- context [match on_transport_failure ?a ?m with _ => _ end] =>
      destruct (on_transport_failure a m)
    | |- context [match json_body ?x with _ => _ end] =>
      destruct (json_body x) eqn:?
    | |- context [match int_of_header ?p ?x with _ => _ end] =>
      destruct (int_of_header p x) eqn:?
    | |- context [match contains_data ?x with _ => _ end] =>
      destruct (contains_data x) as [?|[|]] eqn:?
    | |- context [match py_gt ?x ?y with _ => _ end] =>
      destruct (py_gt x y) as [?|[|]]
    | |- context [let (_, _) := call_api ?p ?f ?q ?m ?k ?a in _] =>
      let R := fresh "R" in
      destruct (call_api p f q m k a) as [? ?] eqn:R
    end;
    intros H; try discriminate H.
  all: injection H as _ He; subst.
  all: first
    [ match goal with
      | R : call_api _ _ _ _ _ _ = _ |- _ => exact (IH _ _ _ _ _ _ R)
      end
    | split; [apply Z.eqb_eq; assumption|];
      split; [eexists; eassumption|];
      eexists; split; [eassumption|];
      split; [eassumption | apply contains_data_passes; eassumption] ].
Qed.

(** X7.  Whatever [call_api] returns other than [None] is a response of status
    200 whose quota header reads as an integer and whose body passes the test
    ["data" in response_json]: an object with the key ["data"], so that the
    callers' read of [json()["data"]] succeeds, or else a list with the item
    ["data"] or a string containing it, on which that read raises
    [TypeError]; never [null], a number or a boolean. *)
Theorem call_api_returns_data fuel post max_retries evs r :
  call_api py_int fuel post max_retries 0 0 = (evs, Returned (Some r)) ->
  status_code r = 200 /\
  (exists rl, int_of_header py_int (x_ratelimit_remaining r) = inr rl) /\
  exists response_json,
    json_body r = Some response_json /\
    contains_data response_json = inr true /\
    passes_data_test response_json.
Proof. apply call_api_returned. Qed.

(** *** The budget of transport failures *)

Lemma call_api_exhausted post max_retries :
  (forall i, post i = TransportFailure) ->
  forall d fuel n attempt,
    Z.of_nat d = max_retries - 1 - attempt ->
    (d <= fuel)%nat ->
    call_api py_int fuel post max_retries n attempt = (retried d, Returned None).
Proof.
  intros Hfail. induction d as [|d IH]; intros fuel n attempt Hd Hfuel.
  - assert (E : (attempt <? max_retries - 1) = false) by (apply Z.ltb_ge; lia).
    destruct fuel; cbn [call_api]; cbv zeta; rewrite Hfail;
      unfold on_transport_failure; rewrite E; reflexivity.
  - assert (E : (attempt <? max_retries - 1) = true) by (apply Z.ltb_lt; lia).
    destruct fuel as [|fuel]; [lia|].
    cbn [call_api]. cbv zeta. rewrite Hfail.
    unfold on_transport_failure. rewrite E.
    rewrite (IH fuel (S n) (attempt + 1)) by lia. reflexivity.
Qed.

(** X8.  When every request fails in transport, [call_api] with a budget of
    [max_retries >= 1] sends [max_retries] requests, sleeps 20 seconds
    between two of them and returns [None]: it does not raise. *)
Theorem transport_budget_exhausted post max_retries fuel :
  1 <= max_retries ->
  (forall i, post i = TransportFailure) ->
  (Z.to_nat (max_retries - 1) <= fuel)%nat ->
  call_api py_int fuel post max_retries 0 0
    = (retried (Z.to_nat (max_retries - 1)), Returned None) /\
  List.length (filter (fun e => match e with Post => true | Sleep _ => false end)
                 (retried (Z.to_nat (max_retries - 1))))
    = Z.to_nat max_retries.
Proof.
  intros Hmax Hfail Hfuel. split.
  - apply call_api_exhausted; [exact Hfail | lia | exact Hfuel].
  - replace (Z.to_nat max_retries) with (S (Z.to_nat (max_retries - 1))) by lia.
    generalize (Z.to_nat (max_retries - 1)) as d.
    induction d as [|d IH]; [reflexivity|].
    unfold retried in *. cbn [repeat List.concat List.app filter List.length] in *.
    rewrite IH. reflexivity.
Qed.

End CallApi.

(** *** [wrapped_requests_get] *)

Lemma wrapped_get_retries get max_retries text :
  forall k fuel n attempt,
    0 <= attempt ->
    attempt + Z.of_nat k < max_retries ->
    (forall i, (i < k)%nat -> get (n + i)%nat = ConnectionFailure) ->
    get (n + k)%nat = Fetched text ->
    (k <= fuel)%nat ->
    wrapped_requests_get fuel get max_retries n attempt
      = (retried k, Some (Some text)).
Proof.
  induction k as [|k IH]; intros fuel n attempt Ha Hk Hfail Hlast Hfuel.
  - rewrite Nat.add_0_r in Hlast.
    assert (E : (attempt <? max_retries) = true) by (apply Z.ltb_lt; lia).
    destruct fuel; cbn [wrapped_requests_get]; rewrite E, Hlast; reflexivity.
  - destruct fuel as [|fuel]; [lia|].
    assert (E : (attempt <? max_retries) = true) by (apply Z.ltb_lt; lia).
    assert (E1 : (attempt <? max_retries - 1) = true) by (apply Z.ltb_lt; lia).
    cbn [wrapped_requests_get]. rewrite E.
    pose proof (Hfail 0%nat ltac:(lia)) as H0. rewrite Nat.add_0_r in H0.
    rewrite H0, E1.
    rewrite (IH fuel (S n) (attempt + 1)); [reflexivity | lia | lia | | | lia].
    + intros i Hi. replace (S n + i)%nat with (n + S i)%nat by lia.
      apply Hfail. lia.
    + replace (S n + k)%nat with (n + S k)%nat by lia. exact Hlast.
Qed.

(** X9.  [wrapped_requests_get] returns the first response it gets: when the
    first [k < max_retries] requests fail in transport and the next one is
    answered, it returns that answer after [k] sleeps of 20 seconds.  With a
    budget of zero or less it sends no request and returns [None]. *)
Theorem wrapped_get_first_response get max_retries text k fuel :
  Z.of_nat k < max_retries ->
  (forall i, (i < k)%nat -> get i = ConnectionFailure) ->
  get k = Fetched text ->
  (k <= fuel)%nat ->
  wrapped_requests_get fuel get max_retries 0 0 = (retried k, Some (Some text)) /\
  (forall get' budget, budget <= 0 ->
     wrapped_requests_get fuel get' budget 0 0 = ([], Some None)).
Proof.
  intros Hk Hfail Hlast Hfuel. split.
  - apply wrapped_get_retries; try assumption; lia.
  - intros get' budget Hb.
    assert (E : (0 <? budget) = false) by (apply Z.ltb_ge; lia).
    destruct fuel; cbn [wrapped_requests_get]; rewrite E; reflexivity.
Qed.

(** The two wrappers on scripted transports. *)
Definition always_down (i : nat) : post_outcome := TransportFailure.

Lemma transport_budget_exhausted_witness :
  call_api decimal_int 20 always_down 10 0 0 = (retried 9, Returned None).
Proof.
  refine (proj1 (transport_budget_exhausted decimal_int always_down 10 20 _ _ _)).
  - lia.
  - intros i. reflexivity.
  - vm_compute. lia.
Defined.

Definition data_response : Response :=
  {| status_code := 200;
     x_ratelimit_remaining := Some "4321";
     json_body := Some (JObj [("data", JObj [])]) |}.

Lemma call_api_returns_data_witness :
  status_code data_response = 200 /\
  (exists rl,
     int_of_header decimal_int (x_ratelimit_remaining data_response) = inr rl) /\
  exists response_json,
    json_body data_response = Some response_json /\
    contains_data response_json = inr true /\
    passes_data_test response_json.
Proof.
  refine (call_api_returns_data decimal_int 3 (fun _ => Responded data_response)
            10 [Post] data_response _).
  reflexivity.
Defined.

(** A body that is the list [["data"]] passes the test of [call_api] as
    well: the response is returned, and [json()["data"]] raises on it. *)
Definition list_response : Response :=
  {| status_code := 200;
     x_ratelimit_remaining := Some "4321";
     json_body := Some (JArr [JStr "data"]) |}.

Example list_body_is_returned :
  call_api decimal_int 3 (fun _ => Responded list_response) 10 0 0
    = ([Post], Returned (Some list_response)) /\
  subscript (JArr [JStr "data"]) "data" = inl TypeError.
Proof. split; reflexivity. Qed.

Definition third_time (i : nat) : fetch_outcome :=
  if (i <? 2)%nat then ConnectionFailure else Fetched "diff --git a/x b/x".

Lemma wrapped_get_first_response_witness :
  wrapped_requests_get 5 third_time 10 0 0
    = (retried 2, Some (Some "diff --git a/x b/x")).
Proof.
  refine (proj1 (wrapped_get_first_response third_time 10 "diff --git a/x b/x"
                   2 5 _ _ _ _)).
  - lia.
  - intros i Hi. destruct i as [|[|i]]; [reflexivity | reflexivity | lia].
  - reflexivity.
  - lia.
Defined.

End Transport.

(** ** Versions read off tag names *)

Module Versions.

Import Utils.

(** A non-empty run of decimal digits. *)
Fixpoint digits_only (s : string) : bool :=
  match s with
  | EmptyString => true
  | String c s' => is_digit c && digits_only s'
  end.

Definition number (s : string) : Prop := s <> "" /\ digits_only s = true.

(** The shape [major.minor]. *)
Definition major_minor (v : string) : Prop :=
  exists major minor, v = major ++ "." ++ minor /\ number major /\ number minor.

(** *** Strings *)

Lemma string_append_assoc (a b c : string) : (a ++ b) ++ c = a ++ (b ++ c).
Proof. induction a as [|x a IH]; simpl; [reflexivity | rewrite IH; reflexivity]. Qed.

Lemma prefix_append (v rest : string) : prefix v (v ++ rest) = true.
Proof.
  induction v as [|c v IH]; simpl; [destruct rest; reflexivity|].
  destruct (ascii_dec c c); [exact IH | contradiction].
Qed.

Lemma contains_prefix (w s : string) : prefix w s = true -> contains w s = true.
Proof. intros H. destruct s; cbn [contains]; rewrite H; reflexivity. Qed.

Lemma contains_append (w before rest : string) :
  contains w (before ++ w ++ rest) = true.
Proof.
  induction before as [|c before IH].
  - cbn [append]. apply contains_prefix, prefix_append.
  - cbn [append contains]. rewrite IH. destruct (prefix w _); reflexivity.
Qed.

Lemma contains_split (w s : string) :
  contains w s = true -> exists before rest, s = before ++ w ++ rest.
Proof.
  induction s as [|c s IH]; cbn [contains]; intros H.
  - destruct (prefix w "") eqn:E; [|discriminate].
    destruct w; [|discriminate]. exists "", "". reflexivity.
  - destruct (prefix w (String c s)) eqn:E.
    + exists "". clear H IH. revert E. generalize (String c s) as t. clear.
      induction w as [|x w IH]; intros t E.
      * exists t. reflexivity.
      * destruct t as [|y t]; [discriminate|]. cbn [prefix] in E.
        destruct (ascii_dec x y) as [<-|]; [|discriminate].
        destruct (IH t E) as [rest Hrest]. exists rest.
        cbn [append] in *. rewrite <- Hrest. reflexivity.
    + destruct (IH H) as (before & rest & ->).
      exists (String c before), rest. reflexivity.
Qed.

(** *** The match of the pattern *)

Lemma span_digits_split s :
  s = fst (span_digits s) ++ snd (span_digits s) /\
  digits_only (fst (span_digits s)) = true.
Proof.
  induction s as [|c s [IH1 IH2]]; [split; reflexivity|].
  cbn [span_digits]. destruct (is_digit c) eqn:Ec; [|split; reflexivity].
  destruct (span_digits s) as [d r]. cbn [fst snd] in *. split.
  - cbn [append]. rewrite <- IH1. reflexivity.
  - cbn [digits_only]. rewrite Ec, IH2. reflexivity.
Qed.

Lemma span_digits_number d r :
  digits_only d = true ->
  match r with EmptyString => True | String c _ => is_digit c = false end ->
  span_digits (d ++ r) = (d, r).
Proof.
  intros Hd Hr. induction d as [|c d IH]; cbn [append].
  - destruct r as [|c r]; [reflexivity|]. cbn [span_digits]. rewrite Hr. reflexivity.
  - cbn [digits_only] in Hd. apply andb_true_iff in Hd. destruct Hd as [Hc Hd].
    cbn [span_digits]. rewrite Hc, (IH Hd). reflexivity.
Qed.

Lemma span_digits_rest s :
  match snd (span_digits s) with
  | EmptyString => True
  | String c _ => is_digit c = false
  end.
Proof.
  induction s as [|c s IH]; [exact I|].
  cbn [span_digits]. destruct (is_digit c) eqn:Ec.
  - destruct (span_digits s). exact IH.
  - exact Ec.
Qed.

Lemma span_digits_all d :
  digits_only d = true -> span_digits d = (d, "").
Proof.
  induction d as [|c d IH]; [reflexivity|].
  cbn [digits_only span_digits]. intros H. apply andb_true_iff in H.
  destruct H as [Hc Hd]. rewrite Hc, (IH Hd). reflexivity.
Qed.

Lemma match_version_self major minor :
  number major -> number minor ->
  match_version (major ++ "." ++ minor) = Some (major ++ "." ++ minor).
Proof.
  intros [Hne1 Hd1] [Hne2 Hd2]. unfold match_version.
  change ("." ++ minor) with (String "." minor).
  rewrite (span_digits_number major (String "." minor) Hd1 eq_refl).
  destruct major as [|m major]; [contradiction|].
  cbn [Ascii.eqb Bool.eqb]. rewrite (span_digits_all minor Hd2).
  destruct minor; [contradiction | reflexivity].
Qed.

Lemma match_version_shape s v :
  match_version s = Some v ->
  major_minor v /\ match_version v = Some v /\ exists rest, s = v ++ rest.
Proof.
  unfold match_version.
  pose proof (span_digits_split s) as [Hs Hmajor].
  destruct (span_digits s) as [major r1]. cbn [fst snd] in *.
  destruct major as [|m major]; [discriminate|].
  destruct r1 as [|c r]; [discriminate|].
  destruct (Ascii.eqb c ".") eqn:Ec; [|discriminate].
  apply Ascii.eqb_eq in Ec. subst c.
  pose proof (span_digits_split r) as [Hr Hminor].
  pose proof (span_digits_rest r) as Hrest.
  destruct (span_digits r) as [minor r2]. cbn [fst snd] in *.
  destruct minor as [|n minor]; [discriminate|].
  intros [= <-]. split; [|split].
  - exists (String m major), (String n minor).
    split; [reflexivity|]. split; split; try discriminate; assumption.
  - refine (match_version_self (String m major) (String n minor) _ _);
      split; try discriminate; assumption.
  - exists r2. rewrite Hs, Hr.
    exact (eq_sym (string_append_assoc (String m major) (String "." (String n minor)) r2)).
Qed.

Lemma search_version_facts s v :
  search_version s = Some v ->
  major_minor v /\ contains v s = true /\ search_version v = Some v.
Proof.
  induction s as [|c s IH]; cbn [search_version].
  - destruct (match_version "") eqn:E; [|discriminate]. discriminate E.
  - destruct (match_version (String c s)) as [v'|] eqn:E.
    + intros [= ->]. destruct (match_version_shape _ _ E) as (Hshape & Hself & rest & Hrest).
      split; [exact Hshape|]. split.
      * rewrite Hrest. apply contains_prefix, prefix_append.
      * destruct v as [|x v]; [destruct Hshape as (a & b & H & _); destruct a; discriminate|].
        cbn [search_version]. rewrite Hself. reflexivity.
    + intros H. destruct (IH H) as (Hshape & Hin & Hself).
      split; [exact Hshape|]. split; [|exact Hself].
      cbn [contains]. rewrite Hin. destruct (prefix v (String c s)); reflexivity.
Qed.

(** X10.  Whatever [re.search] finds in a name has the shape [major.minor], is a
    part of the name, and is read back as itself. *)
Theorem search_version_shape s v :
  search_version s = Some v ->
  major_minor v /\ contains v s = true /\ search_version v = Some v.
Proof. apply search_version_facts. Qed.

Lemma search_version_shape_witness :
  major_minor "2.5" /\ contains "2.5" "release-v2.5.1" = true /\
  search_version "2.5" = Some "2.5".
Proof. exact (search_version_shape "release-v2.5.1" "2.5" eq_refl). Defined.

Section Resolution.

Variable parse_timestamp : string -> option Z.

(** *** Every version comes from a cached tag *)

Lemma min_from_in c l :
  forall best best_key t,
    min_from parse_timestamp c best best_key l = inr t -> t = best \/ In t l.
Proof.
  induction l as [|x l IH]; intros best best_key t; cbn [min_from].
  - intros [= <-]. left. reflexivity.
  - destruct (tag_distance parse_timestamp c x) as [e|k]; cbn [bind];
      [discriminate|].
    destruct (k <? best_key); intros H; destruct (IH _ _ _ H) as [-> | Hin].
    + right. left. reflexivity.
    + right. right. exact Hin.
    + left. reflexivity.
    + right. right. exact Hin.
Qed.

Lemma closest_tag_in c cache t :
  closest_tag parse_timestamp c cache = inr t -> In t cache.
Proof.
  destruct cache as [|x l]; cbn [closest_tag]; [discriminate|].
  destruct (tag_distance parse_timestamp c x) as [e|k]; cbn [bind];
    [discriminate|].
  intros H. destruct (min_from_in c l x k t H) as [-> | Hin].
  - left. reflexivity.
  - right. exact Hin.
Qed.

Lemma resolved_version cache commit_lookup commit_sha version :
  get_version_at_commit parse_timestamp cache commit_lookup commit_sha
    = Some version ->
  major_minor version /\
  exists tags tag commit_date,
    cache = Some tags /\ commit_lookup = inr commit_date /\
    In tag tags /\ search_version (tag_name tag) = Some version.
Proof.
  unfold get_version_at_commit, resolve_version.
  destruct commit_lookup as [e|commit_date]; cbn [bind]; [discriminate|].
  destruct cache as [[|newest rest]|]; cbn [ret]; try discriminate.
  set (tags := newest :: rest).
  intros H.
  assert (Hfound : exists tag, In tag tags /\
                     search_version (tag_name tag) = Some version).
  { destruct (filter (fun tag => String.eqb (tag_oid tag) commit_sha) tags)
      as [|exact others] eqn:Ef.
    - destruct (match commit_date with
                | Some d =>
                  if truthy commit_date
                  then bind (timestamp parse_timestamp d) (fun commit_timestamp =>
                       bind (closest_tag parse_timestamp commit_timestamp tags)
                            (fun closest => ret (search_version (tag_name closest))))
                  else ret None
                | None => ret None
                end) as [e|[v|]] eqn:Ed; cbn [bind ret] in H; try discriminate.
      + injection H as <-.
        destruct commit_date as [d|]; [|discriminate].
        destruct (truthy (Some d)); [|discriminate].
        destruct (timestamp parse_timestamp d) as [e|ts]; cbn [bind] in Ed;
          [discriminate|].
        destruct (closest_tag parse_timestamp ts tags) as [e|closest] eqn:Ec;
          cbn [bind ret] in Ed; [discriminate|].
        injection Ed as Ed. exists closest. split; [|exact Ed].
        exact (closest_tag_in ts tags closest Ec).
      + exists newest. split; [left; reflexivity | exact H].
    - assert (Hin : In exact tags).
      { assert (Hf : In exact (filter (fun tag => String.eqb (tag_oid tag) commit_sha) tags))
          by (rewrite Ef; left; reflexivity).
        apply filter_In in Hf. exact (proj1 Hf). }
      destruct (search_version (tag_name exact)) as [v|] eqn:Ev;
        cbn [ret] in H; [|discriminate].
      injection H as <-. exists exact. split; assumption. }
  destruct Hfound as (tag & Hin & Hv). split.
  - exact (proj1 (search_version_facts _ _ Hv)).
  - exists tags, tag, commit_date. repeat split; assumption.
Qed.

(** X11.  A version that [get_version_at_commit] returns is the one [re.search]
    reads off the name of some cached tag, and has the shape [major.minor];
    the commit-date query did not raise and the cache is not empty.  So a
    repository without tags, or a failing query, gives no version. *)
Theorem version_read_off_cached_tag cache commit_lookup commit_sha version :
  get_version_at_commit parse_timestamp cache commit_lookup commit_sha
    = Some version ->
  major_minor version /\
  exists tags tag commit_date,
    cache = Some tags /\ commit_lookup = inr commit_date /\
    In tag tags /\ search_version (tag_name tag) = Some version.
Proof. apply resolved_version. Qed.

(** *** The cache is sorted newest first, once *)

(** The date of [a] is not before the date of [b]. *)
Definition not_older (a b : Tag) : Prop :=
  exists ta tb,
    parse_timestamp (tag_date a) = Some ta /\
    parse_timestamp (tag_date b) = Some tb /\ tb <= ta.

Definition key_not_less (a b : Z * Tag) : Prop := fst b <= fst a.

Lemma insert_permutation kx sorted :
  Permutation (kx :: sorted) (insert_newest_first kx sorted).
Proof.
  induction sorted as [|ky rest IH]; cbn [insert_newest_first]; [reflexivity|].
  destruct (fst kx <? fst ky); [|reflexivity].
  rewrite perm_swap. apply perm_skip. exact IH.
Qed.

Lemma insert_sorted kx sorted :
  StronglySorted key_not_less sorted ->
  StronglySorted key_not_less (insert_newest_first kx sorted).
Proof.
  induction sorted as [|ky rest IH]; intros Hs; cbn [insert_newest_first].
  - constructor; constructor.
  - inversion Hs as [|? ? Hrest Hall]; subst.
    destruct (fst kx <? fst ky) eqn:E.
    + apply Z.ltb_lt in E. constructor; [apply IH; exact Hrest|].
      apply (Permutation_Forall (insert_permutation kx rest)).
      constructor; [unfold key_not_less; lia | exact Hall].
    + apply Z.ltb_ge in E. constructor; [exact Hs|].
      constructor; [exact E|].
      apply (Forall_impl (key_not_less kx) (P := key_not_less ky));
        [|exact Hall].
      unfold key_not_less. intros z Hz. lia.
Qed.

Lemma sort_keys ks :
  Permutation ks (fold_right insert_newest_first [] ks) /\
  StronglySorted key_not_less (fold_right insert_newest_first [] ks).
Proof.
  induction ks as [|kx ks [IHp IHs]]; cbn [fold_right].
  - split; constructor.
  - split; [|apply insert_sorted; exact IHs].
    rewrite <- insert_permutation. apply perm_skip. exact IHp.
Qed.

Lemma keyed_tags tags : forall ks, keyed parse_timestamp tags = inr ks ->
  map snd ks = tags.
Proof.
  induction tags as [|x rest IH]; intros ks; cbn [keyed].
  - intros [= <-]. reflexivity.
  - destruct (timestamp parse_timestamp (tag_date x)) as [e|k]; cbn [bind];
      [discriminate|].
    destruct (keyed parse_timestamp rest) as [e|ks']; cbn [bind ret];
      [discriminate|].
    intros [= <-]. cbn [map snd]. rewrite (IH ks' eq_refl). reflexivity.
Qed.

Lemma sorted_tags ks :
  (forall k x, In (k, x) ks -> parse_timestamp (tag_date x) = Some k) ->
  StronglySorted key_not_less ks ->
  StronglySorted not_older (map snd ks).
Proof.
  induction ks as [|[k x] ks IH]; intros Hparse Hs; cbn [map]; [constructor|].
  inversion Hs as [|? ? Hrest Hall]; subst. constructor.
  - apply IH; [|exact Hrest]. intros k' x' Hin. apply Hparse. right. exact Hin.
  - apply Forall_forall. intros y Hy. apply in_map_iff in Hy.
    destruct Hy as ([k' y'] & Heq & Hin). cbn [snd] in Heq. subst y'.
    rewrite Forall_forall in Hall. specialize (Hall (k', y) Hin).
    exists k, k'. split; [apply Hparse; left; reflexivity|].
    split; [apply Hparse; right; exact Hin | exact Hall].
Qed.

Lemma sort_newest_first_sorted tags sorted :
  sort_newest_first parse_timestamp tags = inr sorted ->
  Permutation tags sorted /\ StronglySorted not_older sorted.
Proof.
  unfold sort_newest_first.
  destruct (keyed parse_timestamp tags) as [e|ks] eqn:Ek; cbn [bind ret];
    [discriminate|].
  intros [= <-]. destruct (sort_keys ks) as [Hp Hs]. split.
  - rewrite <- (keyed_tags tags ks Ek). apply Permutation_map. exact Hp.
  - apply sorted_tags; [|exact Hs].
    intros k x Hin. apply (keyed_parse parse_timestamp tags ks Ek).
    apply (Permutation_in _ (Permutation_sym Hp)). exact Hin.
Qed.

(** X12.  The cache the first load builds is sorted by date, newest first, so that
    the tag at index 0, which the fallback reads, is a newest one; and once
    loaded, a later load changes nothing, whatever the listing then gives. *)
Theorem loaded_cache_newest_first listing cache :
  _tags_cache (_load_tags_cache parse_timestamp fresh listing) = Some cache ->
  StronglySorted not_older cache /\
  (forall newest others t,
     cache = newest :: others -> In t others -> not_older newest t) /\
  (forall later,
     _load_tags_cache parse_timestamp
       (_load_tags_cache parse_timestamp fresh listing) later
     = _load_tags_cache parse_timestamp fresh listing).
Proof.
  intros H.
  assert (Hs : StronglySorted not_older cache).
  { revert H. unfold _load_tags_cache, fresh.
    cbn [_tags_cache_loaded _tags_cache].
    destruct listing as [e|[[|r refs]|]]; cbn [bind ret _tags_cache];
      try discriminate.
    - intros [= <-]. constructor.
    - destruct (collect_tags (r :: refs) []) as [e|tags];
        cbn [bind ret _tags_cache]; [intros [= <-]; constructor|].
      destruct (sort_newest_first parse_timestamp tags) as [e|sorted] eqn:Es;
        cbn [bind ret _tags_cache]; intros [= <-]; [constructor|].
      exact (proj2 (sort_newest_first_sorted tags sorted Es)). }
  split; [exact Hs|]. split.
  - intros newest others t -> Hin. inversion Hs as [|? ? _ Hall]; subst.
    rewrite Forall_forall in Hall. exact (Hall t Hin).
  - intros later.
    destruct (fresh_load_dates_parse parse_timestamp listing cache H) as [Hl _].
    unfold _load_tags_cache at 1. rewrite Hl. reflexivity.
Qed.

End Resolution.

Definition release_refs : list TagRef :=
  [{| ref_name := "v1.0.0"; ref_oid := "aaa111";
      ref_date := inr (Some "2023-05-01T00:00:00Z") |};
   {| ref_name := "v2.0.0"; ref_oid := "bbb222";
      ref_date := inr (Some "2024-02-01T00:00:00Z") |};
   {| ref_name := "signed"; ref_oid := "ccc333"; ref_date := inr None |}].

Lemma loaded_cache_newest_first_witness :
  _tags_cache (_load_tags_cache utc_timestamp fresh (inr (Some release_refs)))
    = Some [{| tag_name := "v2.0.0"; tag_oid := "bbb222";
               tag_date := "2024-02-01T00:00:00Z" |};
            {| tag_name := "v1.0.0"; tag_oid := "aaa111";
               tag_date := "2023-05-01T00:00:00Z" |}] /\
  StronglySorted (not_older utc_timestamp)
    [{| tag_name := "v2.0.0"; tag_oid := "bbb222";
        tag_date := "2024-02-01T00:00:00Z" |};
     {| tag_name := "v1.0.0"; tag_oid := "aaa111";
        tag_date := "2023-05-01T00:00:00Z" |}].
Proof.
  split; [reflexivity|].
  exact (proj1 (loaded_cache_newest_first utc_timestamp
                  (inr (Some release_refs)) _ eq_refl)).
Defined.

Lemma version_read_off_cached_tag_witness :
  major_minor "3.0" /\
  exists tags tag commit_date,
    Some [tag_ten_days; tag_two_days] = Some tags /\
    (inr (Some "2024-01-11T00:00:00Z") : result (option string))
      = inr commit_date /\
    In tag tags /\ search_version (tag_name tag) = Some "3.0".
Proof.
  exact (version_read_off_cached_tag utc_timestamp
           (Some [tag_ten_days; tag_two_days])
           (inr (Some "2024-01-11T00:00:00Z")) "ccc333" "3.0" eq_refl).
Defined.

End Versions.

(** ** The paginator beyond the empty page *)

Module Pages.

Import Utils.

Section Bound.

Variable py_int : string -> option Z.
Variable data_path : list string.
Variable api : nat -> json -> api_outcome.

(** The nodes of each page, for the statement of the bound. *)
Variable nodes : nat -> list json.

(** The [i]-th call fetches a well-formed page: it holds the nodes
    [nodes i], at least one, and announces a next page and its cursor. *)
Definition full_page (i : nat) : Prop :=
  forall cursor,
    exists r body data page_info next,
      api i cursor = ApiReturned (Some r) /\
      json_body r = Some body /\
      navigate data_path body = inr data /\
      subscript data "nodes" = inr (JArr (nodes i)) /\
      nodes i <> [] /\
      subscript data "pageInfo" = inr page_info /\
      subscript page_info "hasNextPage" = inr (JBool true) /\
      subscript page_info "endCursor" = inr next.

Lemma full_page_step n i st :
  full_page i ->
  page st = Z.of_nat (S i) ->
  exists st',
    page st' = Z.of_nat (S (S i)) /\
    page_step py_int data_path (Some (Z.of_nat n)) true api i st =
      if (n <=? S i)%nat then Stop (nodes i) Finished
      else Continue (nodes i) st'.
Proof.
  intros Hfull Hpage.
  destruct (Hfull (after st))
    as (r & body & data & page_info & next & Ha & Hb & Hd & Hn & Hne & Hpi & Hh & Hc).
  exists {| page := page st + 1; after := next; response := Bound (Some r) |}.
  split; [cbn [page]; lia|].
  unfold page_step. rewrite Ha, Hb, Hd. cbn [bind]. rewrite Hn. cbn [bind ret].
  assert (Ht : json_truthy (JArr (nodes i)) = true)
    by (cbn; destruct (nodes i); [contradiction | reflexivity]).
  rewrite Ht. cbn [negb iterate ret]. unfold reaches_page_bound, after_loop.
  destruct (n <=? S i)%nat eqn:E.
  - apply Nat.leb_le in E.
    assert (E' : (Z.of_nat n <=? page st) = true) by (apply Z.leb_le; lia).
    rewrite E'. reflexivity.
  - apply Nat.leb_gt in E.
    assert (E' : (Z.of_nat n <=? page st) = false) by (apply Z.leb_gt; lia).
    rewrite E', Hpi. cbn [bind]. rewrite Hh, Hc. reflexivity.
Qed.

Lemma bounded_run n :
  (forall i, (i < n)%nat -> full_page i) ->
  forall d i st fuel,
    (i + S d = n)%nat ->
    page st = Z.of_nat (S i) ->
    (d <= fuel)%nat ->
    get_all_loop_from py_int data_path (Some (Z.of_nat n)) true api fuel i st
      = (List.concat (map nodes (seq i (S d))), Some Finished).
Proof.
  intros Hfull. induction d as [|d IH]; intros i st fuel Hn Hpage Hfuel.
  - destruct (full_page_step n i st (Hfull i ltac:(lia)) Hpage) as (st' & _ & Hstep).
    assert (E : (n <=? S i)%nat = true) by (apply Nat.leb_le; lia).
    rewrite E in Hstep.
    destruct fuel; cbn [get_all_loop_from]; rewrite Hstep; cbn;
      rewrite app_nil_r; reflexivity.
  - destruct (full_page_step n i st (Hfull i ltac:(lia)) Hpage)
      as (st' & Hpage' & Hstep).
    assert (E : (n <=? S i)%nat = false) by (apply Nat.leb_gt; lia).
    rewrite E in Hstep.
    destruct fuel as [|fuel]; [lia|].
    cbn [get_all_loop_from]. rewrite Hstep.
    rewrite (IH (S i) st' fuel) by (try exact Hpage'; lia).
    reflexivity.
Qed.

(** X13.  With [num_pages = n >= 1] and [n] well-formed pages that all announce a
    next page, [get_all_loop] makes exactly [n] calls: it yields the nodes of
    the first [n] pages, in order, and ends. *)
Theorem page_bound_respected n fuel :
  (1 <= n)%nat ->
  (forall i, (i < n)%nat -> full_page i) ->
  (n - 1 <= fuel)%nat ->
  get_all_loop py_int data_path (Some (Z.of_nat n)) true api fuel
    = (List.concat (map nodes (seq 0 n)), Some Finished).
Proof.
  intros Hn Hfull Hfuel. unfold get_all_loop.
  replace n with (S (n - 1)) at 2 by lia.
  apply (bounded_run n Hfull (n - 1) 0); [lia | reflexivity | exact Hfuel].
Qed.

(** *** Calls that fail *)

Variable num_pages : option Z.
Variable quiet : bool.

(** X14.  When [call_api] returns [None] for a page, the generator does not retry
    it: reading [response.json()] and then [response.headers] raises
    [AttributeError], which leaves the generator.  And when the first call of
    all raises, the handler finds [response] unbound and the generator ends
    with [UnboundLocalError]. *)
Theorem failed_call_leaves_generator fuel :
  (forall i st,
     api i (after st) = ApiReturned None ->
     get_all_loop_from py_int data_path num_pages quiet api fuel i st
       = ([], Some (GenRaised AttributeError))) /\
  (forall e,
     api 0%nat JNull = ApiRaised e ->
     get_all_loop py_int data_path num_pages quiet api fuel
       = ([], Some (GenRaised (UnboundLocalError "response")))).
Proof.
  split.
  - intros i st H. destruct fuel; cbn [get_all_loop_from]; unfold page_step;
      rewrite H; reflexivity.
  - intros e H. unfold get_all_loop.
    destruct fuel; cbn [get_all_loop_from]; unfold page_step;
      cbn [after]; rewrite H; reflexivity.
Qed.

End Bound.

(** Three pages of comments, each announcing a next page. *)
Definition comment_nodes (i : nat) : list json :=
  [JStr ("comment " ++ str_of_int (Z.of_nat i))].

Definition three_pages (i : nat) (cursor : json) : api_outcome :=
  ApiReturned (Some (page_of (comment_nodes i))).

Lemma page_bound_respected_witness :
  get_all_loop decimal_int ["data"; "comments"] (Some 2) true three_pages 4
  = ([JStr "comment 0"; JStr "comment 1"], Some Finished).
Proof.
  refine (page_bound_respected decimal_int ["data"; "comments"] three_pages
            comment_nodes 2 4 _ _ _).
  - lia.
  - intros i Hi cursor. unfold three_pages, page_of.
    do 5 eexists. repeat split; try reflexivity. discriminate.
  - lia.
Defined.

End Pages.

(** ** Hints and patches, beyond the cutoff and the split *)

Module Assembly.

Import Utils.

Section Hints.

Variable World : Type.
Variable parse_timestamp : string -> option Z.
Variable mktime_strptime : string -> option Z.
Variable get_pull_commits : Z -> M World (list CommitNode).
Variable get_issue_comments : Z -> M World (list Comment).

Lemma select_hints_lengths commit_time comments :
  forall hint all hint' all',
    select_hints mktime_strptime commit_time comments hint all
      = inr (hint', all') ->
    (List.length hint <= List.length all)%nat ->
    (List.length hint' <= List.length all')%nat.
Proof.
  induction comments as [|c rest IH]; intros hint all hint' all';
    cbn [select_hints].
  - intros [= <- <-] H. exact H.
  - destruct (comment_time mktime_strptime c) as [e|t]; cbn [bind];
      [discriminate|].
    intros Hsel Hlen. apply (IH _ _ _ _ Hsel).
    destruct (t <? commit_time); rewrite ?length_app; cbn [List.length]; lia.
Qed.

Lemma select_hints_raises commit_time comments :
  forall hint all e,
    select_hints mktime_strptime commit_time comments hint all = inl e ->
    e = ValueError.
Proof.
  induction comments as [|c rest IH]; intros hint all e; cbn [select_hints].
  - discriminate.
  - unfold comment_time. destruct (mktime_strptime (updatedAt c)) as [t|];
      cbn [bind ret raise].
    + apply IH.
    + intros [= <-]. reflexivity.
Qed.

(** X15.  The assertion of [_extract_hints] never fails: whatever the exception
    that leaves it, it was raised by one of the two listings or is the
    [ValueError] of a date that does not parse. *)
Theorem hints_assertion_holds pull issue_number w w' e :
  _extract_hints World parse_timestamp mktime_strptime get_pull_commits
    get_issue_comments pull issue_number w = (w', inl e) ->
  e = ValueError \/
  (exists w0, snd (get_pull_commits (number pull) w0) = inl e) \/
  (exists w0, snd (get_issue_comments issue_number w0) = inl e).
Proof.
  unfold _extract_hints, mbind, lift, mret, mraise.
  destruct (get_pull_commits (number pull) w) as [w1 [e1|commits]] eqn:Hc.
  - intros [= <- <-]. right. left. exists w. rewrite Hc. reflexivity.
  - destruct commits as [|first commits]; [discriminate|].
    unfold timestamp.
    destruct (parse_timestamp (commit_author_date first)) as [commit_time|];
      cbn [ret raise]; [|intros [= <- <-]; left; reflexivity].
    destruct (get_issue_comments issue_number w1) as [w2 [e2|comments]] eqn:Hm.
    + intros [= <- <-]. right. right. exists w1. rewrite Hm. reflexivity.
    + destruct (select_hints mktime_strptime commit_time comments [] [])
        as [e3|[hint all]] eqn:Hs.
      * intros [= <- <-]. left. exact (select_hints_raises _ _ _ _ _ Hs).
      * pose proof (select_hints_lengths _ _ _ _ _ _ Hs (Nat.le_refl _)) as L.
        apply Nat.leb_le in L. rewrite L. discriminate.
Qed.

End Hints.

(** A comment whose [updatedAt] is not in the format [strptime] is given. *)
Definition undated_comment : Comment :=
  {| body := "Any news?"; updatedAt := "yesterday" |}.

Lemma hints_assertion_holds_witness :
  _extract_hints nat utc_timestamp (local_mktime 0) scripted_commits
    (scripted_comments [undated_comment]) (pull_12 [7]) 7 0%nat
    = (1%nat, inl ValueError) /\
  (ValueError = ValueError \/
   (exists w0, snd (scripted_commits (number (pull_12 [7])) w0)
               = inl ValueError) \/
   (exists w0, snd (scripted_comments [undated_comment] 7 w0)
               = inl ValueError)).
Proof.
  split; [vm_compute; reflexivity|].
  apply (hints_assertion_holds nat utc_timestamp (local_mktime 0)
           scripted_commits (scripted_comments [undated_comment])
           (pull_12 [7]) 7 0%nat 1%nat ValueError).
  vm_compute; reflexivity.
Defined.

(** *** The words that decide a test path *)

Lemma prefix_shorter (a b s : string) :
  prefix (a ++ b) s = true -> prefix a s = true.
Proof.
  revert s. induction a as [|x a IH]; intros s.
  - destruct s; reflexivity.
  - destruct s as [|y s]; cbn [append prefix]; [discriminate|].
    destruct (ascii_dec x y); [apply IH | discriminate].
Qed.

Lemma contains_shorter (a b s : string) :
  contains (a ++ b) s = true -> contains a s = true.
Proof.
  induction s as [|c s IH]; cbn [contains].
  - destruct (prefix (a ++ b) "") eqn:E; [|discriminate].
    rewrite (prefix_shorter a b "" E). reflexivity.
  - destruct (prefix (a ++ b) (String c s)) eqn:E.
    + rewrite (prefix_shorter a b _ E). reflexivity.
    + intros H. rewrite (IH H). destruct (prefix a (String c s)); reflexivity.
Qed.

(** X16.  Of the four words of [extract_patches] only [test] and [e2e] decide: a
    file goes to the test patch exactly when its path contains one of the
    two, wherever it does, so that a path such as [src/latest.py] is a test
    path. *)
Theorem test_path_two_words p :
  is_test_path p = contains "test" p || contains "e2e" p.
Proof.
  unfold is_test_path, test_words. cbn [existsb].
  pose proof (contains_shorter "test" "s" p) as Hs.
  pose proof (contains_shorter "test" "ing" p) as Hing.
  cbn [append] in Hs, Hing.
  destruct (contains "test" p), (contains "tests" p), (contains "e2e" p),
    (contains "testing" p); cbn; try reflexivity;
    first [ discriminate (Hs eq_refl) | discriminate (Hing eq_refl) ].
Qed.

Example latest_is_a_test_path : is_test_path "src/latest.py" = true.
Proof. reflexivity. Qed.

End Assembly.

(** ** The fields [create_instance] derives, [build_dataset.py] *)

Module BuildDataset.

(** [s.replace("/", "__")]. *)
Fixpoint replace_slash (s : string) : string :=
  match s with
  | EmptyString => ""
  | String c s' =>
    if Ascii.eqb c "/" then "__" ++ replace_slash s'
    else String c (replace_slash s')
  end.

(** [(repo.full_name + "-" + str(pull["number"])).replace("/", "__")]. *)
Definition instance_id (full_name : string) (number : Z) : string :=
  replace_slash (full_name ++ "-" ++ str_of_int number).

(** [version if version else "0.0"]. *)
Definition version_field (version : option string) : string :=
  if truthy version
  then match version with Some v => v | None => "0.0" end
  else "0.0".

(** The character [c] does not occur in [s]. *)
Fixpoint lacks (c : ascii) (s : string) : bool :=
  match s with
  | EmptyString => true
  | String x s' => negb (Ascii.eqb x c) && lacks c s'
  end.

(** *** Characters and decimal numerals *)

Lemma lacks_app c a b : lacks c (a ++ b) = lacks c a && lacks c b.
Proof.
  induction a as [|x a IH]; cbn [append lacks]; [reflexivity|].
  rewrite IH. apply andb_assoc.
Qed.

Lemma replace_slash_app a b :
  replace_slash (a ++ b) = replace_slash a ++ replace_slash b.
Proof.
  induction a as [|x a IH]; cbn [append replace_slash]; [reflexivity|].
  rewrite IH. destruct (Ascii.eqb x "/"); reflexivity.
Qed.

Lemma replace_slash_id s : lacks "/" s = true -> replace_slash s = s.
Proof.
  induction s as [|x s IH]; cbn [lacks replace_slash]; [reflexivity|].
  intros H. apply andb_true_iff in H. destruct H as [Hx Hs].
  apply negb_true_iff in Hx. rewrite Hx, (IH Hs). reflexivity.
Qed.

Lemma digits_lack c d :
  Utils.is_digit c = false -> lacks c (NilEmpty.string_of_uint d) = true.
Proof.
  intros Hc. induction d; cbn [NilEmpty.string_of_uint lacks];
    try reflexivity; rewrite IHd, andb_true_r; apply negb_true_iff;
    apply Ascii.eqb_neq; intros <-; discriminate Hc.
Qed.

Lemma numeral_lacks c n :
  0 <= n -> Utils.is_digit c = false -> lacks c (str_of_int n) = true.
Proof.
  intros Hn Hc. unfold str_of_int.
  destruct n as [|p|p]; [| |lia]; cbn [Z.to_int NilZero.string_of_int].
  - exact (digits_lack c (Decimal.D0 Decimal.Nil) Hc).
  - unfold NilZero.string_of_uint.
    pose proof (digits_lack c (Pos.to_uint p) Hc) as H.
    destruct (Pos.to_uint p) eqn:E; try exact H.
    elim (DecimalPos.Unsigned.to_uint_nonnil p E).
Qed.

Lemma str_of_int_injective n n' : str_of_int n = str_of_int n' -> n = n'.
Proof.
  unfold str_of_int. intros H.
  assert (Hnn : forall z, Z.to_int z <> Decimal.Pos Decimal.Nil /\
                          Z.to_int z <> Decimal.Neg Decimal.Nil).
  { intros [|p|p]; cbn [Z.to_int]; split; try discriminate;
      intros [= E]; exact (DecimalPos.Unsigned.to_uint_nonnil p E). }
  apply (f_equal NilZero.int_of_string) in H.
  rewrite !NilZero.isi in H by apply Hnn.
  injection H as H. apply (f_equal Z.of_int) in H.
  rewrite !DecimalZ.of_to in H. exact H.
Qed.

(** *** Reading an instance id back *)

Lemma lacks_occurrence c a b : lacks c (a ++ String c b) = false.
Proof.
  rewrite lacks_app. cbn [lacks]. rewrite Ascii.eqb_refl.
  destruct (lacks c a); reflexivity.
Qed.

(** What stands before the first [c] and what follows it. *)
Lemma split_at_first c a b a' b' :
  lacks c a = true -> lacks c a' = true ->
  a ++ String c b = a' ++ String c b' -> a = a' /\ b = b'.
Proof.
  revert a'. induction a as [|x a IH]; intros [|x' a'] Ha Ha';
    cbn [append]; intros H.
  - injection H as ->. split; reflexivity.
  - injection H as <- _. cbn [lacks] in Ha'. rewrite Ascii.eqb_refl in Ha'.
    discriminate.
  - injection H as -> _. cbn [lacks] in Ha. rewrite Ascii.eqb_refl in Ha.
    discriminate.
  - injection H as -> H. cbn [lacks] in Ha, Ha'.
    apply andb_true_iff in Ha, Ha'.
    destruct (IH a' (proj2 Ha) (proj2 Ha') H) as [-> ->]. split; reflexivity.
Qed.

(** What stands before the last [c] and what follows it. *)
Lemma split_at_last c a b a' b' :
  lacks c b = true -> lacks c b' = true ->
  a ++ String c b = a' ++ String c b' -> a = a' /\ b = b'.
Proof.
  intros Hb Hb'. revert a'. induction a as [|x a IH]; intros [|x' a'];
    cbn [append]; intros H.
  - injection H as ->. split; reflexivity.
  - injection H as _ H. rewrite H in Hb. rewrite lacks_occurrence in Hb.
    discriminate.
  - injection H as _ H. rewrite <- H in Hb'. rewrite lacks_occurrence in Hb'.
    discriminate.
  - injection H as -> H. destruct (IH a' H) as [-> ->]. split; reflexivity.
Qed.

Lemma instance_id_shape owner name number :
  lacks "/" owner = true -> lacks "/" name = true -> 0 <= number ->
  instance_id (owner ++ "/" ++ name) number
    = owner ++ String "_" (String "_" (name ++ String "-" (str_of_int number))).
Proof.
  intros Ho Hn Hnum. unfold instance_id.
  rewrite Versions.string_append_assoc, replace_slash_app, (replace_slash_id owner Ho).
  cbn [append replace_slash Ascii.eqb Bool.eqb].
  rewrite replace_slash_app, (replace_slash_id name Hn).
  cbn [append replace_slash Ascii.eqb Bool.eqb].
  rewrite (replace_slash_id (str_of_int number))
    by (apply numeral_lacks; [exact Hnum | reflexivity]).
  reflexivity.
Qed.

(** X17.  The instance id of [owner/name] and a pull number holds no slash, and on
    owners without underscore (as the host's owners are), names without
    slash and pull numbers that are not negative it tells owner, name and
    number apart: two pull requests never share an instance id. *)
Theorem instance_id_injective owner name number owner' name' number' :
  lacks "/" owner = true -> lacks "_" owner = true -> lacks "/" name = true ->
  lacks "/" owner' = true -> lacks "_" owner' = true -> lacks "/" name' = true ->
  0 <= number -> 0 <= number' ->
  lacks "/" (instance_id (owner ++ "/" ++ name) number) = true /\
  (instance_id (owner ++ "/" ++ name) number
     = instance_id (owner' ++ "/" ++ name') number' ->
   owner = owner' /\ name = name' /\ number = number').
Proof.
  intros Ho Hu Hn Ho' Hu' Hn' Hnum Hnum'.
  rewrite (instance_id_shape owner name number Ho Hn Hnum).
  rewrite (instance_id_shape owner' name' number' Ho' Hn' Hnum').
  split.
  - rewrite lacks_app. cbn [lacks Ascii.eqb Bool.eqb negb andb].
    rewrite lacks_app. cbn [lacks Ascii.eqb Bool.eqb negb andb].
    rewrite Ho, Hn, (numeral_lacks "/" number Hnum eq_refl). reflexivity.
  - intros H.
    destruct (split_at_first "_" _ _ _ _ Hu Hu' H) as [-> H1].
    injection H1 as H1.
    destruct (split_at_last "-" _ _ _ _
                (numeral_lacks "-" number Hnum eq_refl)
                (numeral_lacks "-" number' Hnum' eq_refl) H1) as [-> H2].
    split; [reflexivity|]. split; [reflexivity|].
    apply str_of_int_injective. exact H2.
Qed.

Lemma instance_id_injective_witness :
  lacks "/" (instance_id ("owner" ++ "/" ++ "repo") 12) = true /\
  (instance_id ("owner" ++ "/" ++ "repo") 12
     = instance_id ("owner" ++ "/" ++ "repo") 12 ->
   "owner" = "owner" /\ "repo" = "repo" /\ 12 = 12).
Proof.
  apply (instance_id_injective "owner" "repo" 12 "owner" "repo" 12);
    try reflexivity; lia.
Defined.

(** The id of the resume example of the driver. *)
Example instance_id_owner_repo_12 :
  instance_id "owner/repo" 12 = "owner__repo-12".
Proof. reflexivity. Qed.

(** Where an owner may hold an underscore two repositories share an id. *)
Example instance_id_collision :
  instance_id "a_/b" 1 = instance_id "a/_b" 1.
Proof. reflexivity. Qed.

(** *** The version of an instance *)

(** X18.  The version field of an instance always has the shape [major.minor]: it
    is the version read off a cached tag, or ["0.0"], which it is whenever
    the repository has no cached tag or the commit-date query raised. *)
Theorem version_field_major_minor parse_timestamp cache commit_lookup commit_sha :
  Versions.major_minor
    (version_field
       (Utils.get_version_at_commit parse_timestamp cache commit_lookup
          commit_sha)) /\
  (forall e,
     version_field
       (Utils.get_version_at_commit parse_timestamp cache (inl e) commit_sha)
     = "0.0") /\
  version_field
    (Utils.get_version_at_commit parse_timestamp None commit_lookup commit_sha)
  = "0.0" /\
  version_field
    (Utils.get_version_at_commit parse_timestamp (Some []) commit_lookup
       commit_sha)
  = "0.0".
Proof.
  assert (Hzero : Versions.major_minor "0.0").
  { exists "0", "0". split; [reflexivity|].
    split; split; try discriminate; reflexivity. }
  split; [|split; [|split]].
  - destruct (Utils.get_version_at_commit parse_timestamp cache commit_lookup
                commit_sha) as [v|] eqn:E; [|exact Hzero].
    pose proof (proj1 (Versions.resolved_version parse_timestamp _ _ _ _ E))
      as Hshape.
    unfold version_field. destruct (truthy (Some v)); [exact Hshape | exact Hzero].
  - intros e. reflexivity.
  - destruct commit_lookup; reflexivity.
  - destruct commit_lookup; reflexivity.
Qed.

End BuildDataset.

(** ** The issue filter, [issue_filter/utils.py] and [issue_eval.py] *)

Module IssueFilter.

Import Utils.

Record message : Type := {
  role : string;
  content : string
}.

(** The loop of [convert_context_to_messages] from index [idx] on. *)
Fixpoint alternate (idx : nat) (context : list string) : list message :=
  match context with
  | [] => []
  | utt :: rest =>
    {| role := if Nat.even idx then "user" else "assistant"; content := utt |}
      :: alternate (S idx) rest
  end.

Definition convert_context_to_messages (context : list string)
  (system_message : string) : result (list message) :=
  if Nat.odd (List.length context) then
    ret (List.app
           (if negb (String.eqb system_message "")
            then [{| role := "system"; content := system_message |}]
            else [])
           (alternate 0 context))
  else raise AssertionError.





Section Evaluation.

(** The [n]-th request to the model and its [json()]; [None] when either
    raises. *)
Variable chat : nat -> option json.



(** *** Reading the evaluation *)

Definition evaluation_mark : string := "reason for evaluation:".
Definition score_mark : string := "issue score:".

Fixpoint drop (n : nat) (s : string) : string :=
  match n, s with
  | O, _ => s
  | S n', String _ s' => drop n' s'
  | S _, EmptyString => ""
  end.

(** What follows the first occurrence of [w] in [s]. *)
Fixpoint after_first (w s : string) : option string :=
  if prefix w s then Some (drop (String.length w) s)
  else match s with
       | EmptyString => None
       | String _ s' => after_first w s'
       end.

(** What precedes the first occurrence of [w] in [s]. *)
Fixpoint before_first (w s : string) : option string :=
  if prefix w s then Some ""
  else match s with
       | EmptyString => None
       | String c s' => option_map (String c) (before_first w s')
       end.

(** Group 1 of [issue score:(\d+)] matched at the head of [s]. *)
Definition score_here (s : string) : option string :=
  if prefix score_mark s then
    match fst (span_digits (drop (String.length score_mark) s)) with
    | EmptyString => None
    | String _ _ as d => Some d
    end
  else None.

(** [re.search(r"issue score:(\d+)", s)], then [group(1)]. *)
Fixpoint search_score (s : string) : option string :=
  match score_here s with
  | Some d => Some d
  | None =>
    match s with
    | EmptyString => None
    | String _ s' => search_score s'
    end
  end.

(** [re.search(r"reason for evaluation:(.*?)issue score:", s, re.DOTALL)],
    then [group(1)]: the lazy group ends at the first score mark that
    follows the first evaluation mark. *)
Definition search_analysis (s : string) : option string :=
  match after_first evaluation_mark s with
  | Some rest => before_first score_mark rest
  | None => None
  end.

(** [parse_eval_response]: every exception is raised again as a
    [ValueError]. *)
Definition parse_eval_response (response : json) : result (string * Z) :=
  match response with
  | JStr text =>
    match search_analysis text, search_score text with
    | Some analysis, Some score =>
      match digits_value 0 score with
      | Some n => ret (SearchApi.strip analysis, n)
      | None => raise ValueError
      end
    | _, _ => raise ValueError
    end
  | _ => raise ValueError
  end.






(** *** How an evaluation ends *)








End Evaluation.

(** The reply format the prompt asks for, with a space after the score
    mark, is not read; without the space it is. *)
Example prompt_format_is_not_read :
  parse_eval_response
    (JStr ("reason for evaluation: clear" ++ newline ++ "issue score: 7"))
    = inl ValueError /\
  parse_eval_response
    (JStr ("reason for evaluation: clear" ++ newline ++ "issue score:7"))
    = inr ("clear", 7).
Proof. split; reflexivity. Qed.

(** *** The messages of a conversation *)

Lemma alternate_contents context :
  forall idx, map content (alternate idx context) = context.
Proof.
  induction context as [|utt rest IH]; intros idx; cbn [alternate map];
    [reflexivity|].
  rewrite IH. reflexivity.
Qed.

Lemma alternate_roles context :
  forall idx i m,
    nth_error (alternate idx context) i = Some m ->
    role m = if Nat.even (idx + i) then "user" else "assistant".
Proof.
  induction context as [|utt rest IH]; intros idx i m; cbn [alternate].
  - destruct i; discriminate.
  - destruct i as [|i]; cbn [nth_error].
    + intros [= <-]. rewrite Nat.add_0_r. reflexivity.
    + intros H. rewrite (IH (S idx) i m H).
      replace (S idx + i)%nat with (idx + S i)%nat by lia. reflexivity.
Qed.

Lemma alternate_length context :
  forall idx, List.length (alternate idx context) = List.length context.
Proof.
  induction context as [|utt rest IH]; intros idx; cbn [alternate List.length];
    [reflexivity|].
  rewrite IH. reflexivity.
Qed.

(** X20.  [convert_context_to_messages] raises [AssertionError] on a context of
    even length, the empty one included.  Otherwise the messages are the
    system message, when there is one, and then the utterances in order, by
    the user and the assistant in turn: the first and the last of them are
    the user's. *)
Theorem messages_end_with_user context system_message :
  match convert_context_to_messages context system_message with
  | inl e => e = AssertionError /\ Nat.even (List.length context) = true
  | inr messages =>
    Nat.odd (List.length context) = true /\
    map content messages =
      List.app (if negb (String.eqb system_message "")
                then [system_message] else [])
               context /\
    exists system conversation,
      messages = List.app system conversation /\
      List.length conversation = List.length context /\
      (forall i m, nth_error conversation i = Some m ->
                   role m = if Nat.even i then "user" else "assistant") /\
      option_map role (nth_error conversation 0) = Some "user" /\
      option_map role
        (nth_error conversation (List.length context - 1)) = Some "user"
  end.
Proof.
  unfold convert_context_to_messages.
  destruct (Nat.odd (List.length context)) eqn:Hodd; cbn [ret raise].
  - split; [reflexivity|]. split.
    + rewrite map_app, alternate_contents.
      destruct (negb (String.eqb system_message "")); reflexivity.
    + exists (if negb (String.eqb system_message "")
              then [{| role := "system"; content := system_message |}]
              else []), (alternate 0 context).
      split; [reflexivity|]. split; [apply alternate_length|]. split.
      * intros i m H. exact (alternate_roles context 0 i m H).
      * assert (Hlast : exists m,
                  nth_error (alternate 0 context) (List.length context - 1)
                    = Some m).
        { destruct (nth_error (alternate 0 context) (List.length context - 1))
            eqn:E; [eexists; reflexivity|].
          apply nth_error_None in E. rewrite alternate_length in E.
          destruct context; [discriminate Hodd | cbn [List.length] in E; lia]. }
        destruct Hlast as [m Hm]. split.
        -- destruct context; [discriminate Hodd | reflexivity].
        -- rewrite Hm. cbn [option_map].
           rewrite (alternate_roles context 0 _ m Hm). cbn [Nat.add].
           assert (He : Nat.even (List.length context - 1) = true).
           { destruct (List.length context) as [|k] eqn:El; [discriminate Hodd|].
             cbn [Nat.sub]. rewrite Nat.sub_0_r.
             rewrite Nat.odd_succ in Hodd. exact Hodd. }
           rewrite He. reflexivity.
  - split; [reflexivity|]. unfold Nat.odd in Hodd.
    apply negb_false_iff in Hodd. exact Hodd.
Qed.

End IssueFilter.

(** ** The validity tiers, [filter_instances.py] *)

Module FilterInstances.

Import SearchApi.

(** [s.count(sub)] for a non-empty [sub]: the occurrences met from the left,
    none of them overlapping the one before ([skip] characters of the last
    occurrence are still to be passed). *)
Fixpoint count_from (skip : nat) (sub s : string) : nat :=
  match s with
  | EmptyString => O
  | String _ s' =>
      match skip with
      | S k => count_from k sub s'
      | O => if prefix sub s
             then S (count_from (String.length sub - 1) sub s')
             else count_from O sub s'
      end
  end.

Definition count (sub s : string) : Z := Z.of_nat (count_from O sub s).

(** [s.split('\n')]. *)
Fixpoint split_lines (s : string) : list string :=
  match s with
  | EmptyString => [""]
  | String c s' =>
      if Ascii.eqb c (ascii_of_nat 10) then "" :: split_lines s'
      else match split_lines s' with
           | line :: lines => String c line :: lines
           | [] => [String c ""]
           end
  end.

(** [re.match(r'^diff --git a/(.*?) b/', line)]: group 1, the text between
    the opening words and the first [ b/] after them. *)
Definition header_path (line : string) : option string :=
  if prefix "diff --git a/" line
  then IssueFilter.before_first " b/" (IssueFilter.drop 13 line)
  else None.

(** [s.endswith(suffix)]. *)
Definition ends_with (s suffix : string) : bool :=
  (String.length suffix <=? String.length s)%nat
  && String.eqb
       (substring (String.length s - String.length suffix)
          (String.length suffix) s)
       suffix.

(** The table of [has_code_edited]; a language outside it is a missing key. *)
Definition language_suffix (language : string) : option (list string) :=
  if String.eqb language "Python" then Some [".py"]
  else if String.eqb language "Rust" then Some [".rs"]
  else if String.eqb language "Go" then Some [".go"]
  else if String.eqb language "TypeScript" then Some [".ts"; ".tsx"]
  else if String.eqb language "JavaScript" then Some [".js"; ".jsx"; ".mjs"]
  else if String.eqb language "Java" then Some [".java"]
  else if String.eqb language "C" then Some [".c"; ".h"]
  else if String.eqb language "C++"
       then Some [".cpp"; ".cc"; ".cxx"; ".h"; ".hpp"]
  else if String.eqb language "PHP" then Some [".php"]
  else if String.eqb language "Ruby" then Some [".rb"]
  else None.

(** The paths the loop of [has_code_edited] adds to [changed_files], in the
    order of the lines (the source holds them in a set; [any] does not depend
    on order or repetition). *)
Fixpoint changed_paths (lines : list string) : list string :=
  match lines with
  | [] => []
  | line :: rest =>
      match header_path line with
      | Some path => strip path :: changed_paths rest
      | None => changed_paths rest
      end
  end.

Definition changed_files (patch_content : string) : list string :=
  changed_paths (split_lines patch_content).

(** [any(...)] looks the language up once for each changed file it visits:
    with no changed file the table is never read. *)
Definition has_code_edited (patch_content language : string) : result bool :=
  match changed_files patch_content with
  | [] => ret false
  | files =>
      match language_suffix language with
      | None => raise KeyError
      | Some suffixes =>
          ret (existsb (fun changed_file =>
                          existsb (ends_with changed_file) suffixes) files)
      end
  end.

(** The fields of a task instance the three checks read. *)
Record instance : Type := {
  patch : option string;
  test_patch : option string;
  problem_statement : option string;
  language : string
}.

Definition is_valid_instance_base (i : instance) : result bool :=
  match patch i with
  | None => ret false
  | Some p =>
      if String.eqb (strip p) "" then ret false
      else
        match test_patch i with
        | None => ret false
        | Some t =>
            if String.eqb (strip t) "" then ret false
            else
              match problem_statement i with
              | None => ret false
              | Some statement =>
                  if String.eqb statement "" then ret false
                  else
                    (edited <- has_code_edited p (language i) ;;
                     if negb edited then ret false
                     else
                       test_edited <- has_code_edited t (language i) ;;
                       if negb test_edited then ret false else ret true)%py
              end
        end
  end.

(** [instance["patch"].count(...)]: a patch that is [None] has no [count]. *)
Definition within_limits (lines files : Z) (i : instance) : result bool :=
  match patch i with
  | None => raise AttributeError
  | Some p =>
      if count newline p >? lines then ret false
      else if count "diff --git a/" p >? files then ret false
      else ret true
  end.

Definition is_valid_instance_medium (i : instance) : result bool :=
  within_limits 1000 10 i.

Definition is_valid_instance_high (i : instance) : result bool :=
  within_limits 500 5 i.

Lemma has_code_edited_unknown patch_content language' :
  language_suffix language' = None ->
  has_code_edited patch_content language'
  = match changed_files patch_content with
    | [] => inr false
    | _ => inl KeyError
    end.
Proof.
  intros H. unfold has_code_edited. rewrite H.
  destruct (changed_files patch_content); reflexivity.
Qed.

(** X21.  For a language that is not a key of the table, spelled other than there
    included, no instance passes the base check: the check answers [False]
    or leaves with [KeyError]. *)
Theorem unknown_language_never_valid i :
  language_suffix (language i) = None ->
  is_valid_instance_base i = inr false \/
  is_valid_instance_base i = inl KeyError.
Proof.
  intros H. unfold is_valid_instance_base.
  destruct (patch i) as [p|]; [|left; reflexivity].
  destruct (String.eqb (strip p) ""); [left; reflexivity|].
  destruct (test_patch i) as [t|]; [|left; reflexivity].
  destruct (String.eqb (strip t) ""); [left; reflexivity|].
  destruct (problem_statement i) as [statement|]; [|left; reflexivity].
  destruct (String.eqb statement ""); [left; reflexivity|].
  rewrite !(has_code_edited_unknown _ _ H).
  destruct (changed_files p); cbn [bind ret raise negb];
    [left|right]; reflexivity.
Qed.

(** X22.  An instance that passes the high check passes the medium check. *)
Theorem high_implies_medium i :
  is_valid_instance_high i = inr true ->
  is_valid_instance_medium i = inr true.
Proof.
  unfold is_valid_instance_high, is_valid_instance_medium, within_limits.
  destruct (patch i) as [p|]; [|discriminate].
  destruct (count newline p >? 500) eqn:L; [discriminate|].
  destruct (count "diff --git a/" p >? 5) eqn:F; [discriminate|].
  intros _.
  assert ((count newline p >? 1000) = false) as -> by lia.
  assert ((count "diff --git a/" p >? 10) = false) as -> by lia.
  reflexivity.
Qed.

Definition python_patch : string :=
  "diff --git a/pkg/io.py b/pkg/io.py" ++ newline ++
  "--- a/pkg/io.py" ++ newline ++
  "+++ b/pkg/io.py" ++ newline ++
  "@@ -1 +1 @@" ++ newline ++
  "-x = 1" ++ newline ++
  "+x = 2" ++ newline.

Definition python_test_patch : string :=
  "diff --git a/tests/test_io.py b/tests/test_io.py" ++ newline ++
  "@@ -1 +1 @@" ++ newline ++
  "+assert x == 2" ++ newline.

Definition task (language' : string) : instance :=
  {| patch := Some python_patch;
     test_patch := Some python_test_patch;
     problem_statement := Some "x is 1";
     language := language' |}.

Example task_python_valid :
  is_valid_instance_base (task "Python") = inr true /\
  is_valid_instance_base (task "python") = inl KeyError /\
  is_valid_instance_base (task "Rust") = inr false.
Proof. repeat split; vm_compute; reflexivity. Qed.

Lemma unknown_language_never_valid_witness :
  language_suffix (language (task "python")) = None /\
  (is_valid_instance_base (task "python") = inr false \/
   is_valid_instance_base (task "python") = inl KeyError).
Proof.
  split; [reflexivity|].
  apply (unknown_language_never_valid (task "python")). reflexivity.
Defined.

Lemma high_implies_medium_witness :
  is_valid_instance_high (task "Python") = inr true /\
  is_valid_instance_medium (task "Python") = inr true.
Proof.
  split; [vm_compute; reflexivity|].
  apply (high_implies_medium (task "Python")). vm_compute; reflexivity.
Defined.

End FilterInstances.
